(** * Batched low-order-refinement assembly (fem/lor_assembly.cpp)

    A shallow embedding of the three functions of [lor_assembly.cpp]:
    the 2D kernel [Assemble2DBatchedLOR], the 3D kernel
    [Assemble3DBatchedLOR] and the driver [AssembleBatchedLOR].

    - [double] is an abstract scalar type with the operations the file
      uses ([Scalar]); nothing is assumed about them unless a statement
      says so. The concrete runs use exact rationals ([Qc]), and binary64
      floats where the result is compared with the machine's.
    - [int] is [Z]; [for (i = lo; i < hi; ++i)] is a left fold over
      [range lo hi].
    - An [Array<double>] viewed through [Reshape] is a flat store
      [Z -> R] read and written through the column-major index of
      the view; what the store holds before the first write is arbitrary.
    - The unfinalized [SparseMatrix] is a finite map from (row, column)
      to the stored value. *)

From stdpp Require Import base option list gmap.
From Stdlib Require Import ZArith QArith Qcanon Lia String Floats.

Local Open Scope Z_scope.

(** ** Scalars *)

Class Scalar (R : Type) : Type := {
  zero : R;
  one : R;
  add : R -> R -> R;
  sub : R -> R -> R;
  mul : R -> R -> R;
  div : R -> R -> R;
  neg : R -> R
}.

Declare Scope scalar_scope.
Delimit Scope scalar_scope with R.
Infix "+" := add : scalar_scope.
Infix "-" := sub : scalar_scope.
Infix "*" := mul : scalar_scope.
Infix "/" := div : scalar_scope.
Notation "- x" := (neg x) : scalar_scope.

#[export] Instance Qc_Scalar : Scalar Qc := {|
  zero := 0%Qc;
  one := 1%Qc;
  add := Qcplus;
  sub := Qcminus;
  mul := Qcmult;
  div := Qcdiv;
  neg := Qcopp
|}.

(** ** Loops and arrays *)

(** The values [lo, lo+1, ..., hi-1] a counting loop runs through. *)
Definition range (lo hi : Z) : list Z :=
  List.map (fun i => lo + Z.of_nat i) (seq 0 (Z.to_nat (hi - lo))).

(** [for (int i = lo; i < hi; ++i) body]. *)
Definition for_ {S : Type} (lo hi : Z) (body : Z -> S -> S) (s : S) : S :=
  fold_left (fun s i => body i s) (range lo hi) s.

(** Read of an [Array<int>]; a read outside the array yields 0. *)
Definition aget (a : list Z) (i : Z) : Z :=
  if i <? 0 then 0 else nth (Z.to_nat i) a 0.

(** Flat storage of an [Array<double>]. *)
Definition store (R : Type) : Type := Z -> R.

Definition upd {R : Type} (s : store R) (i : Z) (v : R) : store R :=
  fun j => if j =? i then v else s j.

(** Offset of [(i0,i1,i2,i3)] in [Reshape(data, n0, n1, n2, n3)]: the first
    index runs fastest. *)
Definition idx4 (n0 n1 n2 : Z) (i0 i1 i2 i3 : Z) : Z :=
  i0 + n0 * (i1 + n1 * (i2 + n2 * i3)).

(** ** Mesh and space data read by the kernels *)

Record Embedding : Type := { parent : Z; matrix : Z }.

Record IntegrationPoint (R : Type) : Type := {
  ip_x : R; ip_y : R; ip_z : R; weight : R
}.
Arguments ip_x {R} _.
Arguments ip_y {R} _.
Arguments ip_z {R} _.
Arguments weight {R} _.

Record Mesh (R : Type) : Type := {
  GetNE : Z;
  Dimension : Z;
  GetElementVertices : Z -> list Z;
  GetVertex : Z -> Z -> R;
  embeddings : Z -> Embedding;
  (** the rule [irs.Get(GetElementGeometry(0), 1)] *)
  ir : list (IntegrationPoint R);
  (** [GetGeometricFactors(ir, JACOBIANS)->J] as flat storage *)
  geom_J : store R
}.
Arguments GetNE {R} _.
Arguments Dimension {R} _.
Arguments GetElementVertices {R} _ _.
Arguments GetVertex {R} _ _ _.
Arguments embeddings {R} _ _.
Arguments ir {R} _.
Arguments geom_J {R} _.

Record FiniteElementSpace (R : Type) : Type := {
  GetMesh : Mesh R;
  UsesTensorBasis : bool;
  GetMaxElementOrder : Z;
  GetTrueVSize : Z;
  GetElementDofs : Z -> list Z;
  GetLexicographicOrdering : list Z
}.
Arguments GetMesh {R} _.
Arguments UsesTensorBasis {R} _.
Arguments GetMaxElementOrder {R} _.
Arguments GetTrueVSize {R} _.
Arguments GetElementDofs {R} _ _.
Arguments GetLexicographicOrdering {R} _.

Record BilinearForm (R : Type) : Type := { FESpace : FiniteElementSpace R }.
Arguments FESpace {R} _.

Section Points.
Context {R : Type} `{Scalar R}.

Definition ip_default : IntegrationPoint R :=
  {| ip_x := zero; ip_y := zero; ip_z := zero; weight := zero |}.

(** [ir[iq]] *)
Definition ir_get (rule : list (IntegrationPoint R)) (iq : Z) : IntegrationPoint R :=
  if iq <? 0 then ip_default else nth (Z.to_nat iq) rule ip_default.

Definition ir_size (rule : list (IntegrationPoint R)) : Z :=
  Z.of_nat (List.length rule).
End Points.

(** ** The global sparse matrix *)

Section Sparse.
Context {R : Type} `{Scalar R}.

(** Value at (i,j): the stored one, or zero where nothing is stored. *)
Definition entry (m : gmap (Z * Z) R) (i j : Z) : R :=
  default zero (m !! (i, j)).

(** Modelled from the spec: [SparseMatrix::Add] (linalg/sparsemat.cpp) is
    not part of the file; "adding to (row,col) with duplicate (row,col)
    pairs summed (not overwritten)". *)
Definition Add (i j : Z) (val : R) (m : gmap (Z * Z) R) : gmap (Z * Z) R :=
  <[(i, j) := (entry m i j + val)%R]> m.

(** Modelled from the spec: [SparseMatrix::EliminateRowCol] with
    [Operator::DIAG_KEEP] (linalg/sparsemat.cpp) is not part of the file;
    "zero every off-diagonal entry in row i and column i; the diagonal
    entry at (i,i) is kept at its assembled value". *)
Definition EliminateRowCol (rc : Z) (m : gmap (Z * Z) R) : gmap (Z * Z) R :=
  map_imap (fun (rcj : Z * Z) (v : R) =>
              if bool_decide ((rcj.1 = rc \/ rcj.2 = rc) /\ rcj.1 <> rcj.2)
              then Some zero else Some v) m.

(** Modelled from the spec: [SparseMatrix::Finalize] (linalg/sparsemat.cpp)
    is not part of the file; it "compress[es] duplicate (row,col) entries
    into a canonical sparse structure", which leaves every entry of the
    map as it is. *)
Definition Finalize (m : gmap (Z * Z) R) : gmap (Z * Z) R := m.
End Sparse.

(** ** Assemble2DBatchedLOR *)

Section Kernel2D.
Context {R : Type} `{Scalar R}.

(** The table [btab] = {0.0, 1.0, 1.0, 0.0}. *)
Definition btab (off : Z) : R :=
  if off <? 0 then zero else nth (Z.to_nat off) [zero; one; one; zero] zero.

(** [J(iq,r,c,iel_lor)] of the view [Reshape(geom->J, nq, dim, dim, nel_lor)]. *)
Definition J2D (mesh_lor : Mesh R) (nq dim : Z) (iq r c iel_lor : Z) : R :=
  geom_J mesh_lor (idx4 nq dim dim iq r c iel_lor).

(** Body of the quadrature loop of the geometry pass (source lines 67-92). *)
Definition geom2D_point (mesh_lor : Mesh R) (order dim nq : Z)
    (iel_lor iel_ho iref : Z) (iq : Z) (invJ : store R) : store R :=
  let ncomp := (dim * (dim + 1)) / 2 in
  let nk := order ^ dim in
  let J11 := J2D mesh_lor nq dim iq 0 0 iel_lor in
  let J21 := J2D mesh_lor nq dim iq 1 0 iel_lor in
  let J12 := J2D mesh_lor nq dim iq 0 1 iel_lor in
  let J22 := J2D mesh_lor nq dim iq 1 1 iel_lor in
  let wq := weight (ir_get (ir mesh_lor) iq) in
  let w_detJ := (wq / ((J11 * J22) - (J21 * J12)))%R in
  let invJ := upd invJ (idx4 ncomp nq nk 0 iq iref iel_ho)
                  (w_detJ * (J12 * J12 + J22 * J22))%R in
  let invJ := upd invJ (idx4 ncomp nq nk 1 iq iref iel_ho)
                  (- w_detJ * (J12 * J11 + J22 * J21))%R in
  upd invJ (idx4 ncomp nq nk 2 iq iref iel_ho)
      (w_detJ * (J11 * J11 + J21 * J21))%R.

(** Body of the loop over the fine cells (source lines 51-93). *)
Definition geom2D_cell (mesh_lor : Mesh R) (order dim nq : Z)
    (iel_lor : Z) (invJ : store R) : store R :=
  let iel_ho := parent (embeddings mesh_lor iel_lor) in
  let iref := matrix (embeddings mesh_lor iel_lor) in
  for_ 0 nq (geom2D_point mesh_lor order dim nq iel_lor iel_ho iref) invJ.

(** The geometry pass: the metric buffer after the loop over all fine
    cells, from the buffer as allocated. *)
Definition geom2D (mesh_lor : Mesh R) (order dim : Z) (invJ : store R) : store R :=
  let nq := ir_size (ir mesh_lor) in
  for_ 0 (GetNE mesh_lor) (geom2D_cell mesh_lor order dim nq) invJ.

Definition kx_begin (ix jx : Z) : Z := Z.max (Z.max (ix - 1) 0) (jx - 1).
Definition kx_end (order ix jx : Z) : Z := Z.min (Z.min ix (order - 1)) jx + 1.

(** Body of the two quadrature loops of the assembly pass (lines 175-191):
    what one quadrature point of sub-cell (kx,ky) adds to [val]. *)
Definition quad_term (order ncomp nq nk : Z) (invJ : store R) (iel_ho : Z)
    (ix iy jx jy kx ky : Z) (iqy iqx : Z) (val : R) : R :=
  let k := kx + ky * order in
  let offset_x_i := (kx - ix + 1) * 2 + iqx in
  let offset_y_i := (ky - iy + 1) * 2 + iqy in
  let offset_x_j := (kx - jx + 1) * 2 + iqx in
  let offset_y_j := (ky - jy + 1) * 2 + iqy in
  let iq := iqx + iqy * 2 in
  let a := (btab offset_y_i * (if offset_x_i <? 2 then one else - one))%R in
  let b := (btab offset_x_i * (if offset_y_i <? 2 then one else - one))%R in
  let c := (btab offset_y_j * (if offset_x_j <? 2 then one else - one))%R in
  let d := (btab offset_x_j * (if offset_y_j <? 2 then one else - one))%R in
  let val := (val + a * c * invJ (idx4 ncomp nq nk 0 iq k iel_ho))%R in
  let val := (val + (b * c + a * d) * invJ (idx4 ncomp nq nk 1 iq k iel_ho))%R in
  (val + b * d * invJ (idx4 ncomp nq nk 2 iq k iel_ho))%R.

(** What sub-cell (kx,ky) adds to [val]: its four quadrature points. *)
Definition cell_term (order ncomp nq nk : Z) (invJ : store R) (iel_ho : Z)
    (ix iy jx jy : Z) (ky kx : Z) (val : R) : R :=
  for_ 0 2 (fun iqy => for_ 0 2 (quad_term order ncomp nq nk invJ iel_ho
                                           ix iy jx jy kx ky iqy)) val.

(** The sub-cells (kx,ky) the loops of lines 166-168 run through, in the
    order they are visited. *)
Definition sub_cells (order ix iy jx jy : Z) : list (Z * Z) :=
  ky ← range (kx_begin iy jy) (kx_end order iy jy);
  kx ← range (kx_begin ix jx) (kx_end order ix jx);
  [(kx, ky)].

(** [val] as handed to [A_mat.Add(ii, jj, val)] for the node pair
    i = (ix,iy), j = (jx,jy) of element [iel_ho] (lines 154-195). *)
Definition pair_val (order ncomp nq nk : Z) (invJ : store R) (iel_ho : Z)
    (ix iy jx jy : Z) : R :=
  let kx_begin_ := kx_begin ix jx in
  let kx_end_ := kx_end order ix jx in
  let ky_begin_ := kx_begin iy jy in
  let ky_end_ := kx_end order iy jy in
  for_ ky_begin_ ky_end_
       (fun ky => for_ kx_begin_ kx_end_
                       (cell_term order ncomp nq nk invJ iel_ho ix iy jx jy ky))
       zero.

(** Body of the [yshift] loop (lines 157-196). *)
Definition yshift_step (order ncomp nq nk : Z) (invJ : store R)
    (dofs lex_map : list Z) (iel_ho ix iy ii jx : Z)
    (yshift : Z) (A_mat : gmap (Z * Z) R) : gmap (Z * Z) R :=
  let jy := iy + yshift in
  if (jy <? 0) || (jy >=? order + 1) then A_mat
  else
    let jj := aget dofs (aget lex_map (jx + jy * (order + 1))) in
    let val := pair_val order ncomp nq nk invJ iel_ho ix iy jx jy in
    Add ii jj val A_mat.

(** Body of the [xshift] loop (lines 151-197). *)
Definition xshift_step (order ncomp nq nk : Z) (invJ : store R)
    (dofs lex_map : list Z) (iel_ho ix iy ii : Z)
    (xshift : Z) (A_mat : gmap (Z * Z) R) : gmap (Z * Z) R :=
  let jx := ix + xshift in
  if (jx <? 0) || (jx >=? order + 1) then A_mat
  else
    for_ (-1) 2 (yshift_step order ncomp nq nk invJ dofs lex_map
                             iel_ho ix iy ii jx) A_mat.

(** Body of the loop over the high-order elements (lines 142-201). *)
Definition element2D (order ncomp nq nk : Z) (invJ : store R)
    (fes_ho : FiniteElementSpace R) (lex_map : list Z)
    (iel_ho : Z) (A_mat : gmap (Z * Z) R) : gmap (Z * Z) R :=
  let dofs := GetElementDofs fes_ho iel_ho in
  for_ 0 (order + 1) (fun iy =>
    for_ 0 (order + 1) (fun ix A_mat =>
      let ii := aget dofs (aget lex_map (ix + iy * (order + 1))) in
      for_ (-1) 2 (xshift_step order ncomp nq nk invJ dofs lex_map
                               iel_ho ix iy ii) A_mat)) A_mat.

(** [Assemble2DBatchedLOR<order>]: the matrix after the call; [invJ0] is
    what the freshly allocated buffer [invJ_data] holds. *)
Definition Assemble2DBatchedLOR (order : Z) (mesh_lor mesh_ho : Mesh R)
    (fes_ho : FiniteElementSpace R) (invJ0 : store R)
    (A_mat : gmap (Z * Z) R) : gmap (Z * Z) R :=
  let nel_ho := GetNE mesh_ho in
  let dim := Dimension mesh_ho in
  let nq := ir_size (ir mesh_lor) in
  let ncomp := (dim * (dim + 1)) / 2 in
  let nk := order ^ dim in
  let invJ := geom2D mesh_lor order dim invJ0 in
  let lex_map := GetLexicographicOrdering fes_ho in
  for_ 0 nel_ho (element2D order ncomp nq nk invJ fes_ho lex_map) A_mat.

End Kernel2D.

(** ** Assemble3DBatchedLOR *)

Section Kernel3D.
Context {R : Type} `{Scalar R}.

(** The eight vertices [v0..v7] of a fine cell, each a coordinate triple. *)
Definition cell_vertices (mesh_lor : Mesh R) (iel_lor : Z) (n : Z) : Z -> R :=
  GetVertex mesh_lor (aget (GetElementVertices mesh_lor iel_lor) n).

(** First column of the Jacobian for coordinate [c] (lines 253, 263, 273). *)
Definition Jcol1 (v : Z -> Z -> R) (c : Z) (y z : R) : R :=
  (- (one - y) * (one - z) * v 0 c + (one - y) * (one - z) * v 1 c
   + y * (one - z) * v 2 c - y * (one - z) * v 3 c
   - (one - y) * z * v 4 c + (one - y) * z * v 5 c
   + y * z * v 6 c - y * z * v 7 c)%R.

(** Second column of the Jacobian for coordinate [c] (lines 256, 266, 276). *)
Definition Jcol2 (v : Z -> Z -> R) (c : Z) (x z : R) : R :=
  (- (one - x) * (one - z) * v 0 c - x * (one - z) * v 1 c
   + x * (one - z) * v 2 c + (one - x) * (one - z) * v 3 c
   - (one - x) * z * v 4 c - x * z * v 5 c
   + x * z * v 6 c + (one - x) * z * v 7 c)%R.

(** Third column of the Jacobian for coordinate [c] (lines 259, 269, 279). *)
Definition Jcol3 (v : Z -> Z -> R) (c : Z) (x y : R) : R :=
  (- (one - x) * (one - y) * v 0 c - x * (one - y) * v 1 c
   - x * y * v 2 c - (one - x) * y * v 3 c
   + (one - x) * (one - y) * v 4 c + x * (one - y) * v 5 c
   + x * y * v 6 c + (one - x) * y * v 7 c)%R.

(** The 3x3 Jacobian, row by row. *)
Record Mat3 : Type := {
  m11 : R; m12 : R; m13 : R;
  m21 : R; m22 : R; m23 : R;
  m31 : R; m32 : R; m33 : R
}.

Definition jacobian3D (v : Z -> Z -> R) (x y z : R) : Mat3 :=
  {| m11 := Jcol1 v 0 y z; m12 := Jcol2 v 0 x z; m13 := Jcol3 v 0 x y;
     m21 := Jcol1 v 1 y z; m22 := Jcol2 v 1 x z; m23 := Jcol3 v 1 x y;
     m31 := Jcol1 v 2 y z; m32 := Jcol2 v 2 x z; m33 := Jcol3 v 2 x y |}.

(** [detJ] (lines 293-295). *)
Definition detJ3 (J : Mat3) : R :=
  (m11 J * (m22 J * m33 J - m32 J * m23 J)
   - m21 J * (m12 J * m33 J - m32 J * m13 J)
   + m31 J * (m12 J * m23 J - m22 J * m13 J))%R.

(** [A11..A33] (lines 298-306). *)
Definition adj3 (J : Mat3) : Mat3 :=
  {| m11 := ((m22 J * m33 J) - (m23 J * m32 J))%R;
     m12 := ((m32 J * m13 J) - (m12 J * m33 J))%R;
     m13 := ((m12 J * m23 J) - (m22 J * m13 J))%R;
     m21 := ((m31 J * m23 J) - (m21 J * m33 J))%R;
     m22 := ((m11 J * m33 J) - (m13 J * m31 J))%R;
     m23 := ((m21 J * m13 J) - (m11 J * m23 J))%R;
     m31 := ((m21 J * m32 J) - (m31 J * m22 J))%R;
     m32 := ((m31 J * m12 J) - (m11 J * m32 J))%R;
     m33 := ((m11 J * m22 J) - (m12 J * m21 J))%R |}.

(** The six values stored for one quadrature point (lines 308-313), in the
    order of the component index 0..5. *)
Definition metric3D (w_detJ : R) (A : Mat3) : list R :=
  [ (w_detJ * (m11 A * m11 A + m12 A * m12 A + m13 A * m13 A))%R;
    (w_detJ * (m11 A * m21 A + m12 A * m22 A + m13 A * m23 A))%R;
    (w_detJ * (m11 A * m31 A + m12 A * m32 A + m13 A * m33 A))%R;
    (w_detJ * (m21 A * m21 A + m22 A * m22 A + m23 A * m23 A))%R;
    (w_detJ * (m21 A * m31 A + m22 A * m32 A + m23 A * m33 A))%R;
    (w_detJ * (m31 A * m31 A + m32 A * m32 A + m33 A * m33 A))%R ].

(** The six values of one quadrature point of one fine cell. *)
Definition point_metric3D (mesh_lor : Mesh R) (iel_lor iq : Z) : list R :=
  let v := cell_vertices mesh_lor iel_lor in
  let p := ir_get (ir mesh_lor) iq in
  let J := jacobian3D v (ip_x p) (ip_y p) (ip_z p) in
  let detJ := detJ3 J in
  let w_detJ := (weight p / detJ)%R in
  metric3D w_detJ (adj3 J).

(** Body of the quadrature loop of the geometry pass (lines 244-314). *)
Definition geom3D_point (mesh_lor : Mesh R) (order dim nq : Z)
    (iel_lor iel_ho iref : Z) (iq : Z) (invJ : store R) : store R :=
  let ncomp := (dim * (dim + 1)) / 2 in
  let nk := order ^ dim in
  let M := point_metric3D mesh_lor iel_lor iq in
  let invJ := upd invJ (idx4 ncomp nq nk 0 iq iref iel_ho) (nth 0 M zero) in
  let invJ := upd invJ (idx4 ncomp nq nk 1 iq iref iel_ho) (nth 1 M zero) in
  let invJ := upd invJ (idx4 ncomp nq nk 2 iq iref iel_ho) (nth 2 M zero) in
  let invJ := upd invJ (idx4 ncomp nq nk 3 iq iref iel_ho) (nth 3 M zero) in
  let invJ := upd invJ (idx4 ncomp nq nk 4 iq iref iel_ho) (nth 4 M zero) in
  upd invJ (idx4 ncomp nq nk 5 iq iref iel_ho) (nth 5 M zero).

(** Body of the loop over the fine cells (lines 227-315). *)
Definition geom3D_cell (mesh_lor : Mesh R) (order dim nq : Z)
    (iel_lor : Z) (invJ : store R) : store R :=
  let iel_ho := parent (embeddings mesh_lor iel_lor) in
  let iref := matrix (embeddings mesh_lor iel_lor) in
  for_ 0 nq (geom3D_point mesh_lor order dim nq iel_lor iel_ho iref) invJ.

Definition geom3D (mesh_lor : Mesh R) (order dim : Z) (invJ : store R) : store R :=
  let nq := ir_size (ir mesh_lor) in
  for_ 0 (GetNE mesh_lor) (geom3D_cell mesh_lor order dim nq) invJ.

(** What the assembly loops of the 3D kernel change: the 8x8 dense matrix
    [local_mat] (64 values, column by column) and the global matrix. *)
Record state3D : Type := {
  local_mat : list R;
  A_mat3 : gmap (Z * Z) R
}.

(** [local_mat_ptr[n]] *)
Definition lm_get (lm : list R) (n : Z) : R :=
  if n <? 0 then zero else nth (Z.to_nat n) lm zero.

(** [local_mat_ptr[n] += val]; a write outside the 64 values is dropped. *)
Definition lm_add (lm : list R) (n : Z) (val : R) : list R :=
  if n <? 0 then lm else <[Z.to_nat n := (lm_get lm n + val)%R]> lm.

(** The trilinear gradient factors: [g] is -1 at corner 0 and 1 at corner 1,
    [b] is 1 where the corner is the quadrature point (lines 397-406). *)
Definition gfac (j : Z) : R := if j =? 0 then (- one)%R else one.
Definition bfac (j iq : Z) : R := if j =? iq then one else zero.

(** Body of the innermost loop (lines 426-447): the trial corner
    (ix,iy,iz) against the test corner with gradient (gj_x,gj_y,gj_z). *)
Definition corner_i_step (nd1d : Z) (dofs lex_map : list Z) (kx ky kz : Z)
    (iqx iqy iqz : Z) (J0 J1 J2 J3 J4 J5 : R) (gj_x gj_y gj_z : R)
    (jj_loc : Z) (iz iy ix : Z) (st : state3D) : state3D :=
  let gzi := gfac iz in
  let bzi := bfac iz iqz in
  let gyi := gfac iy in
  let byi := bfac iy iqy in
  let gxi := gfac ix in
  let bxi := bfac ix iqx in
  let gi_x := (gxi * byi * bzi)%R in
  let gi_y := (bxi * gyi * bzi)%R in
  let gi_z := (bxi * byi * gzi)%R in
  let ii_el := (ix + kx) + (iy + ky) * nd1d + (iz + kz) * nd1d * nd1d in
  let ii := aget dofs (aget lex_map ii_el) in
  let ii_loc := ix + 2 * iy + 4 * iz in
  let val := ((gi_x * gj_x) * J0
              + (gi_y * gj_x + gi_x * gj_y) * J1
              + (gi_z * gj_x + gi_x * gj_z) * J2
              + (gi_y * gj_y) * J3
              + (gi_z * gj_y + gi_y * gj_z) * J4
              + (gi_z * gj_z) * J5)%R in
  {| local_mat := lm_add (local_mat st) (ii_loc + 8 * jj_loc) val;
     A_mat3 := A_mat3 st |}.

(** Body of the loop over the test corners (lines 403-450). *)
Definition corner_j_step (nd1d : Z) (dofs lex_map : list Z) (kx ky kz : Z)
    (iqx iqy iqz : Z) (J0 J1 J2 J3 J4 J5 : R)
    (jz jy jx : Z) (st : state3D) : state3D :=
  let gzj := gfac jz in
  let bzj := bfac jz iqz in
  let gyj := gfac jy in
  let byj := bfac jy iqy in
  let gxj := gfac jx in
  let bxj := bfac jx iqx in
  let gj_x := (gxj * byj * bzj)%R in
  let gj_y := (bxj * gyj * bzj)%R in
  let gj_z := (bxj * byj * gzj)%R in
  let jj_el := (jx + kx) + (jy + ky) * nd1d + (jz + kz) * nd1d * nd1d in
  let jj := aget dofs (aget lex_map jj_el) in
  let jj_loc := jx + 2 * jy + 4 * jz in
  for_ 0 2 (fun iz => for_ 0 2 (fun iy => for_ 0 2 (fun ix =>
    corner_i_step nd1d dofs lex_map kx ky kz iqx iqy iqz
                  J0 J1 J2 J3 J4 J5 gj_x gj_y gj_z jj_loc iz iy ix))) st.

(** Body of the loop over the quadrature points of a sub-cell (lines 382-454). *)
Definition quad3D_step (order ncomp nq nk nd1d : Z) (invJ : store R)
    (dofs lex_map : list Z) (iel_ho kx ky kz k : Z)
    (iqz iqy iqx : Z) (st : state3D) : state3D :=
  let iq := iqx + 2 * iqy + 4 * iqz in
  let J0 := invJ (idx4 ncomp nq nk 0 iq k iel_ho) in
  let J1 := invJ (idx4 ncomp nq nk 1 iq k iel_ho) in
  let J2 := invJ (idx4 ncomp nq nk 2 iq k iel_ho) in
  let J3 := invJ (idx4 ncomp nq nk 3 iq k iel_ho) in
  let J4 := invJ (idx4 ncomp nq nk 4 iq k iel_ho) in
  let J5 := invJ (idx4 ncomp nq nk 5 iq k iel_ho) in
  for_ 0 2 (fun jz => for_ 0 2 (fun jy => for_ 0 2 (fun jx =>
    corner_j_step nd1d dofs lex_map kx ky kz iqx iqy iqz
                  J0 J1 J2 J3 J4 J5 jz jy jx))) st.

(** Body of the loop over the sub-cells (lines 371-457): [local_mat = 0.0],
    then the eight quadrature points. *)
Definition subcell3D (order ncomp nq nk nd1d : Z) (invJ : store R)
    (dofs lex_map : list Z) (iel_ho : Z)
    (kz ky kx : Z) (st : state3D) : state3D :=
  let k := kx + ky * order + kz * order * order in
  let st := {| local_mat := replicate (List.length (local_mat st)) zero;
               A_mat3 := A_mat3 st |} in
  for_ 0 2 (fun iqz => for_ 0 2 (fun iqy => for_ 0 2 (fun iqx =>
    quad3D_step order ncomp nq nk nd1d invJ dofs lex_map
                iel_ho kx ky kz k iqz iqy iqx))) st.

(** Body of the loop over the high-order elements (lines 363-460). *)
Definition element3D (order ncomp nq nk nd1d : Z) (invJ : store R)
    (fes_ho : FiniteElementSpace R) (lex_map : list Z)
    (iel_ho : Z) (st : state3D) : state3D :=
  let dofs := GetElementDofs fes_ho iel_ho in
  for_ 0 order (fun kz => for_ 0 order (fun ky => for_ 0 order (fun kx =>
    subcell3D order ncomp nq nk nd1d invJ dofs lex_map iel_ho kz ky kx))) st.

(** The state the 3D kernel ends in; [lm0] is what the 64 values of
    [DenseMatrix local_mat(8, 8)] hold when it is created. *)
Definition run3D (order : Z) (mesh_lor mesh_ho : Mesh R)
    (fes_ho : FiniteElementSpace R) (invJ0 : store R) (lm0 : list R)
    (A_mat : gmap (Z * Z) R) : state3D :=
  let nel_ho := GetNE mesh_ho in
  let dim := Dimension mesh_ho in
  let nq := ir_size (ir mesh_lor) in
  let ncomp := (dim * (dim + 1)) / 2 in
  let nk := order ^ dim in
  let invJ := geom3D mesh_lor order dim invJ0 in
  let nd1d := order + 1 in
  let lex_map := GetLexicographicOrdering fes_ho in
  for_ 0 nel_ho (element3D order ncomp nq nk nd1d invJ fes_ho lex_map)
       {| local_mat := lm0; A_mat3 := A_mat |}.

(** [Assemble3DBatchedLOR<order>]: the matrix after the call. *)
Definition Assemble3DBatchedLOR (order : Z) (mesh_lor mesh_ho : Mesh R)
    (fes_ho : FiniteElementSpace R) (invJ0 : store R) (lm0 : list R)
    (A_mat : gmap (Z * Z) R) : gmap (Z * Z) R :=
  A_mat3 (run3D order mesh_lor mesh_ho fes_ho invJ0 lm0 A_mat).

End Kernel3D.

(** ** AssembleBatchedLOR *)

(** What the driver does to the world outside its locals, in order. *)
Inductive event : Type :=
| EvNewMatrix (height width : Z)
| EvKernel (dim order : Z)
| EvEliminate (rc : Z)
| EvFinalize
| EvReset.

(** The caller's [OperatorHandle &A] and the effects so far. *)
Record world (R : Type) : Type := {
  handle : option (gmap (Z * Z) R);
  trace : list event
}.
Arguments handle {R} _.
Arguments trace {R} _.

(** A call either returns, or is cut short by a failed [MFEM_VERIFY]; both
    leave a world behind. *)
Inductive outcome (R A : Type) : Type :=
| Returned (a : A) (w : world R)
| Aborted (msg : string) (w : world R).
Arguments Returned {R A} _ _.
Arguments Aborted {R A} _ _.

Definition Run (R A : Type) : Type := world R -> outcome R A.

Definition ret {R A : Type} (a : A) : Run R A := fun w => Returned a w.

Definition bind {R A B : Type} (m : Run R A) (k : A -> Run R B) : Run R B :=
  fun w => match m w with
           | Returned a w' => k a w'
           | Aborted msg w' => Aborted msg w'
           end.

Notation "'let*' x ':=' m 'in' k" := (bind m (fun x => k))
  (at level 10, x name, m at level 100, k at level 200).

Definition emit {R : Type} (e : event) : Run R unit :=
  fun w => Returned tt {| handle := handle w; trace := trace w ++ [e] |}.

(** [MFEM_VERIFY(cond, msg)]: the macro (general/error.hpp) is not part of
    the file; a false condition ends the call with the message. *)
Definition MFEM_VERIFY {R : Type} (cond : bool) (msg : string) : Run R unit :=
  fun w => if cond then Returned tt w else Aborted msg w.

Section Driver.
Context {R : Type} `{Scalar R}.

(** Modelled from the spec: the constructor [SparseMatrix(ndofs, ndofs)]
    (linalg/sparsemat.cpp) is not part of the file; "Global Sparse Matrix is
    created empty". *)
Definition new_SparseMatrix (height width : Z) : Run R (gmap (Z * Z) R) :=
  let* _ := emit (EvNewMatrix height width) in ret ∅.

Definition call2D (order : Z) (mesh_lor mesh_ho : Mesh R)
    (fes_ho : FiniteElementSpace R) (invJ0 : store R)
    (A_mat : gmap (Z * Z) R) : Run R (gmap (Z * Z) R) :=
  let* _ := emit (EvKernel 2 order) in
  ret (Assemble2DBatchedLOR order mesh_lor mesh_ho fes_ho invJ0 A_mat).

Definition call3D (order : Z) (mesh_lor mesh_ho : Mesh R)
    (fes_ho : FiniteElementSpace R) (invJ0 : store R) (lm0 : list R)
    (A_mat : gmap (Z * Z) R) : Run R (gmap (Z * Z) R) :=
  let* _ := emit (EvKernel 3 order) in
  ret (Assemble3DBatchedLOR order mesh_lor mesh_ho fes_ho invJ0 lm0 A_mat).

(** The [switch (order)] of the 2D branch (lines 480-498). *)
Definition switch2D (order : Z) (mesh_lor mesh_ho : Mesh R)
    (fes_ho : FiniteElementSpace R) (invJ0 : store R)
    (A_mat : gmap (Z * Z) R) : Run R (gmap (Z * Z) R) :=
  match order with
  | 1 => call2D 1 mesh_lor mesh_ho fes_ho invJ0 A_mat
  | 2 => call2D 2 mesh_lor mesh_ho fes_ho invJ0 A_mat
  | 3 => call2D 3 mesh_lor mesh_ho fes_ho invJ0 A_mat
  | 4 => call2D 4 mesh_lor mesh_ho fes_ho invJ0 A_mat
  | 5 => call2D 5 mesh_lor mesh_ho fes_ho invJ0 A_mat
  | 6 => call2D 6 mesh_lor mesh_ho fes_ho invJ0 A_mat
  | 7 => call2D 7 mesh_lor mesh_ho fes_ho invJ0 A_mat
  | 8 => call2D 8 mesh_lor mesh_ho fes_ho invJ0 A_mat
  | 9 => call2D 9 mesh_lor mesh_ho fes_ho invJ0 A_mat
  | 10 => call2D 10 mesh_lor mesh_ho fes_ho invJ0 A_mat
  | 11 => call2D 11 mesh_lor mesh_ho fes_ho invJ0 A_mat
  | 12 => call2D 12 mesh_lor mesh_ho fes_ho invJ0 A_mat
  | 13 => call2D 13 mesh_lor mesh_ho fes_ho invJ0 A_mat
  | 14 => call2D 14 mesh_lor mesh_ho fes_ho invJ0 A_mat
  | 15 => call2D 15 mesh_lor mesh_ho fes_ho invJ0 A_mat
  | 16 => call2D 16 mesh_lor mesh_ho fes_ho invJ0 A_mat
  | _ => ret A_mat
  end.

(** The [switch (order)] of the 3D branch (lines 502-520). *)
Definition switch3D (order : Z) (mesh_lor mesh_ho : Mesh R)
    (fes_ho : FiniteElementSpace R) (invJ0 : store R) (lm0 : list R)
    (A_mat : gmap (Z * Z) R) : Run R (gmap (Z * Z) R) :=
  match order with
  | 1 => call3D 1 mesh_lor mesh_ho fes_ho invJ0 lm0 A_mat
  | 2 => call3D 2 mesh_lor mesh_ho fes_ho invJ0 lm0 A_mat
  | 3 => call3D 3 mesh_lor mesh_ho fes_ho invJ0 lm0 A_mat
  | 4 => call3D 4 mesh_lor mesh_ho fes_ho invJ0 lm0 A_mat
  | 5 => call3D 5 mesh_lor mesh_ho fes_ho invJ0 lm0 A_mat
  | 6 => call3D 6 mesh_lor mesh_ho fes_ho invJ0 lm0 A_mat
  | 7 => call3D 7 mesh_lor mesh_ho fes_ho invJ0 lm0 A_mat
  | 8 => call3D 8 mesh_lor mesh_ho fes_ho invJ0 lm0 A_mat
  | 9 => call3D 9 mesh_lor mesh_ho fes_ho invJ0 lm0 A_mat
  | 10 => call3D 10 mesh_lor mesh_ho fes_ho invJ0 lm0 A_mat
  | 11 => call3D 11 mesh_lor mesh_ho fes_ho invJ0 lm0 A_mat
  | 12 => call3D 12 mesh_lor mesh_ho fes_ho invJ0 lm0 A_mat
  | 13 => call3D 13 mesh_lor mesh_ho fes_ho invJ0 lm0 A_mat
  | 14 => call3D 14 mesh_lor mesh_ho fes_ho invJ0 lm0 A_mat
  | 15 => call3D 15 mesh_lor mesh_ho fes_ho invJ0 lm0 A_mat
  | 16 => call3D 16 mesh_lor mesh_ho fes_ho invJ0 lm0 A_mat
  | _ => ret A_mat
  end.

(** The pure content of the loop [for (int i : ess_dofs)] (lines 523-526). *)
Definition eliminate_all (ess_dofs : list Z) (A_mat : gmap (Z * Z) R)
    : gmap (Z * Z) R :=
  fold_left (fun m i => EliminateRowCol i m) ess_dofs A_mat.

(** The loop [for (int i : ess_dofs)] with its effects. *)
Fixpoint eliminate_loop (ess_dofs : list Z) (A_mat : gmap (Z * Z) R)
    : Run R (gmap (Z * Z) R) :=
  match ess_dofs with
  | [] => ret A_mat
  | i :: rest =>
      let* _ := emit (EvEliminate i) in
      eliminate_loop rest (EliminateRowCol i A_mat)
  end.

(** [A.Reset(A_mat)]: the handle now owns the matrix. *)
Definition Reset (A_mat : gmap (Z * Z) R) : Run R unit :=
  fun w => Returned tt {| handle := Some A_mat; trace := trace w ++ [EvReset] |}.

(** [AssembleBatchedLOR] (lines 463-530); [invJ0] and [lm0] are what the
    buffers a kernel allocates hold before their first write. *)
Definition AssembleBatchedLOR (form_lor : BilinearForm R)
    (fes_ho : FiniteElementSpace R) (ess_dofs : list Z)
    (invJ0 : store R) (lm0 : list R) : Run R unit :=
  let* _ := MFEM_VERIFY (UsesTensorBasis fes_ho)
                        "Batched LOR assembly requires tensor basis" in
  let mesh_lor := GetMesh (FESpace form_lor) in
  let mesh_ho := GetMesh fes_ho in
  let dim := Dimension mesh_ho in
  let order := GetMaxElementOrder fes_ho in
  let ndofs := GetTrueVSize fes_ho in
  let* A_mat := new_SparseMatrix ndofs ndofs in
  let* A_mat :=
    (if dim =? 2 then switch2D order mesh_lor mesh_ho fes_ho invJ0 A_mat
     else if dim =? 3
          then switch3D order mesh_lor mesh_ho fes_ho invJ0 lm0 A_mat
          else ret A_mat) in
  let* A_mat := eliminate_loop ess_dofs A_mat in
  let* _ := emit EvFinalize in
  Reset (Finalize A_mat).

End Driver.

(** ** Statements of the specification, in its own words *)

Section SpecSide.
Context {R : Type} `{Scalar R}.

Definition mat3_transpose (A : Mat3 (R:=R)) : Mat3 (R:=R) :=
  {| m11 := m11 A; m12 := m21 A; m13 := m31 A;
     m21 := m12 A; m22 := m22 A; m23 := m32 A;
     m31 := m13 A; m32 := m23 A; m33 := m33 A |}.

(** Row times column. *)
Definition mat3_mul (A B : Mat3 (R:=R)) : Mat3 (R:=R) :=
  {| m11 := (m11 A * m11 B + m12 A * m21 B + m13 A * m31 B)%R;
     m12 := (m11 A * m12 B + m12 A * m22 B + m13 A * m32 B)%R;
     m13 := (m11 A * m13 B + m12 A * m23 B + m13 A * m33 B)%R;
     m21 := (m21 A * m11 B + m22 A * m21 B + m23 A * m31 B)%R;
     m22 := (m21 A * m12 B + m22 A * m22 B + m23 A * m32 B)%R;
     m23 := (m21 A * m13 B + m22 A * m23 B + m23 A * m33 B)%R;
     m31 := (m31 A * m11 B + m32 A * m21 B + m33 A * m31 B)%R;
     m32 := (m31 A * m12 B + m32 A * m22 B + m33 A * m32 B)%R;
     m33 := (m31 A * m13 B + m32 A * m23 B + m33 A * m33 B)%R |}.

(** [d] times the identity. *)
Definition mat3_scalar (d : R) : Mat3 (R:=R) :=
  {| m11 := d;    m12 := zero; m13 := zero;
     m21 := zero; m22 := d;    m23 := zero;
     m31 := zero; m32 := zero; m33 := d |}.

(** The determinant as the sum over the six permutations. *)
Definition det3_leibniz (J : Mat3 (R:=R)) : R :=
  (m11 J * m22 J * m33 J + m12 J * m23 J * m31 J + m13 J * m21 J * m32 J
   - m13 J * m22 J * m31 J - m12 J * m21 J * m33 J - m11 J * m23 J * m32 J)%R.

(** The independent entries (xx, xy, xz, yy, yz, zz) of a symmetric matrix,
    each scaled by [w]. *)
Definition sym6 (w : R) (S : Mat3 (R:=R)) : list R :=
  [ (w * m11 S)%R; (w * m12 S)%R; (w * m13 S)%R;
    (w * m22 S)%R; (w * m23 S)%R; (w * m33 S)%R ].

(** The specification's 2D metric: "compute detJ = J11*J22 - J21*J12, and
    w_detJ = weight/detJ. Store the symmetric tensor
    [w_detJ*(J12^2+J22^2), -w_detJ*(J12*J11+J22*J21), w_detJ*(J11^2+J21^2)]
    (xx, xy, yy)". *)
Definition metric2D_spec (J11 J21 J12 J22 wq : R) : list R :=
  let detJ := (J11 * J22 - J21 * J12)%R in
  let w_detJ := (wq / detJ)%R in
  [ (w_detJ * (J12 * J12 + J22 * J22))%R;
    (- w_detJ * (J12 * J11 + J22 * J21))%R;
    (w_detJ * (J11 * J11 + J21 * J21))%R ].

(** The specification's 3D metric: "the 6 independent entries of
    w_detJ * A^T A". *)
Definition metric3D_spec (w_detJ : R) (A : Mat3 (R:=R)) : list R :=
  sym6 w_detJ (mat3_mul (mat3_transpose A) A).

(** The same with the adjugate's rows paired instead: w_detJ * A A^T. *)
Definition metric3D_rows (w_detJ : R) (A : Mat3 (R:=R)) : list R :=
  sym6 w_detJ (mat3_mul A (mat3_transpose A)).

(** The trilinear map of a cell's eight vertices, coordinate [c], as the
    comment of lines 250-251 writes it. *)
Definition trilinear (v : Z -> Z -> R) (c : Z) (x y z : R) : R :=
  ((one - x) * (one - y) * (one - z) * v 0 c + x * (one - y) * (one - z) * v 1 c
   + x * y * (one - z) * v 2 c + (one - x) * y * (one - z) * v 3 c
   + (one - x) * (one - y) * z * v 4 c + x * (one - y) * z * v 5 c
   + x * y * z * v 6 c + (one - x) * y * z * v 7 c)%R.

(** The slot of the metric buffer for (parent element, sub-cell, quadrature
    point, component) in [dim] dimensions. *)
Definition slot (dim order nq : Z) (emb : Embedding) (iq c : Z) : Z :=
  idx4 ((dim * (dim + 1)) / 2) nq (order ^ dim) c iq (matrix emb) (parent emb).

(** The data model's invariant on the refinement embedding: every fine cell
    sits at a sub-cell position of its parent, and no two fine cells at the
    same one. *)
Definition embeddings_wf (mesh_lor : Mesh R) (nk : Z) : Prop :=
  (forall e, 0 <= e < GetNE mesh_lor ->
             0 <= matrix (embeddings mesh_lor e) < nk) /\
  (forall e e', 0 <= e < GetNE mesh_lor -> 0 <= e' < GetNE mesh_lor ->
                embeddings mesh_lor e = embeddings mesh_lor e' -> e = e').

(** The matrix a returned call leaves in the handle. *)
Definition output {A : Type} (o : outcome R A) : option (gmap (Z * Z) R) :=
  match o with
  | Returned _ w => handle w
  | Aborted _ _ => None
  end.

(** The global dof of tensor node (ix,iy) of an element, as line 149 reads it. *)
Definition node_dof (fes_ho : FiniteElementSpace R) (order iel_ho : Z)
    (ix iy : Z) : Z :=
  aget (GetElementDofs fes_ho iel_ho)
       (aget (GetLexicographicOrdering fes_ho) (ix + iy * (order + 1))).

(** The 4x4 pattern of a one-cell stiffness matrix: [d] on the diagonal, [e]
    between nodes sharing an edge, [o] between opposite nodes. *)
Definition stencil4 (d e o : R) (ix iy jx jy : Z) : R :=
  if (ix =? jx) && (iy =? jy) then d
  else if (ix =? jx) || (iy =? jy) then e
  else o.

Definition node_pairs : list ((Z * Z) * (Z * Z)) :=
  i ← [(0, 0); (1, 0); (0, 1); (1, 1)];
  j ← [(0, 0); (1, 0); (0, 1); (1, 1)];
  [(i, j)].

(** "diagonal entries d, edge-adjacent off-diagonal e, diagonally-opposite
    off-diagonal o" for the matrix of one order-1 element. *)
Definition has_stencil4 (fes_ho : FiniteElementSpace R)
    (A_mat : gmap (Z * Z) R) (d e o : R) : Prop :=
  Forall (fun ij : (Z * Z) * (Z * Z) =>
            entry A_mat (node_dof fes_ho 1 0 ij.1.1 ij.1.2)
                        (node_dof fes_ho 1 0 ij.2.1 ij.2.2)
            = stencil4 d e o ij.1.1 ij.1.2 ij.2.1 ij.2.2)
         node_pairs.

End SpecSide.

(** ** Reference inputs *)

Section RefInputs.
Context {R : Type} `{Scalar R}.

Definition two : R := (one + one)%R.
Definition half : R := (one / two)%R.
Definition quarter : R := (one / (two + two))%R.
Definition eighth : R := (one / ((two + two) + (two + two)))%R.

(** Modelled from the spec: the rule [irs.Get(geom, 1)] of
    [IntegrationRules(0, Quadrature1D::GaussLobatto)] (fem/intrules.cpp) is
    not part of the file; "fixed 2 points per axis (Gauss-Lobatto-style
    corner rule)": the corners of the unit square, x running fastest, each
    with a quarter of its area as weight. *)
Definition gl_rule2D : list (IntegrationPoint R) :=
  [ {| ip_x := zero; ip_y := zero; ip_z := zero; weight := quarter |};
    {| ip_x := one;  ip_y := zero; ip_z := zero; weight := quarter |};
    {| ip_x := zero; ip_y := one;  ip_z := zero; weight := quarter |};
    {| ip_x := one;  ip_y := one;  ip_z := zero; weight := quarter |} ].

(** The same for the unit cube: its eight corners, weight one eighth. *)
Definition gl_rule3D : list (IntegrationPoint R) :=
  [ {| ip_x := zero; ip_y := zero; ip_z := zero; weight := eighth |};
    {| ip_x := one;  ip_y := zero; ip_z := zero; weight := eighth |};
    {| ip_x := zero; ip_y := one;  ip_z := zero; weight := eighth |};
    {| ip_x := one;  ip_y := one;  ip_z := zero; weight := eighth |};
    {| ip_x := zero; ip_y := zero; ip_z := one;  weight := eighth |};
    {| ip_x := one;  ip_y := zero; ip_z := one;  weight := eighth |};
    {| ip_x := zero; ip_y := one;  ip_z := one;  weight := eighth |};
    {| ip_x := one;  ip_y := one;  ip_z := one;  weight := eighth |} ].

(** Coordinates of numbered vertices, zero beyond the list. *)
Definition coords (vs : list (list R)) (n c : Z) : R :=
  if (n <? 0) || (c <? 0) then zero
  else nth (Z.to_nat c) (nth (Z.to_nat n) vs []) zero.

(** Jacobians [s * identity] at four quadrature points of every cell, in the
    layout of [Reshape(geom->J, 4, 2, 2, nel_lor)]. *)
Definition scaled_identity_J (s : R) : store R :=
  fun n => if (n mod 16 <? 4) || (12 <=? n mod 16) then s else zero.

(** One order-1 element covering the unit square; the low-order mesh is the
    same single cell. *)
Definition unit_square_mesh : Mesh R :=
  {| GetNE := 1;
     Dimension := 2;
     GetElementVertices := fun _ => [0; 1; 2; 3];
     GetVertex := coords [[zero; zero]; [one; zero]; [one; one]; [zero; one]];
     embeddings := fun _ => {| parent := 0; matrix := 0 |};
     ir := gl_rule2D;
     geom_J := scaled_identity_J one |}.

(** Its order-1 space: vertex dofs 0..3 counter-clockwise, and the
    lexicographic ordering of the bilinear element. *)
Definition unit_square_fes : FiniteElementSpace R :=
  {| GetMesh := unit_square_mesh;
     UsesTensorBasis := true;
     GetMaxElementOrder := 1;
     GetTrueVSize := 4;
     GetElementDofs := fun _ => [0; 1; 2; 3];
     GetLexicographicOrdering := [0; 1; 3; 2] |}.

Definition unit_square_form : BilinearForm R :=
  {| FESpace := unit_square_fes |}.

(** The unit square as one order-2 element: the low-order mesh has the four
    cells of the 2x2 refinement, cell [e] at sub-cell position [e]. *)
Definition refined_square_mesh : Mesh R :=
  {| GetNE := 4;
     Dimension := 2;
     GetElementVertices := fun _ => [];
     GetVertex := fun _ _ => zero;
     embeddings := fun e => {| parent := 0; matrix := e |};
     ir := gl_rule2D;
     geom_J := scaled_identity_J half |}.

(** One hexahedral cell: the unit cube sheared along x by its y coordinate. *)
Definition sheared_hex_mesh : Mesh R :=
  {| GetNE := 1;
     Dimension := 3;
     GetElementVertices := fun _ => [0; 1; 2; 3; 4; 5; 6; 7];
     GetVertex := coords [ [zero; zero; zero]; [one; zero; zero];
                           [two; one; zero];   [one; one; zero];
                           [zero; zero; one];  [one; zero; one];
                           [two; one; one];    [one; one; one] ];
     embeddings := fun _ => {| parent := 0; matrix := 0 |};
     ir := gl_rule3D;
     geom_J := fun _ => zero |}.

(** The order-1 space on it; [order] is what [GetMaxElementOrder] reports. *)
Definition hex_fes (tensor : bool) (order : Z) : FiniteElementSpace R :=
  {| GetMesh := sheared_hex_mesh;
     UsesTensorBasis := tensor;
     GetMaxElementOrder := order;
     GetTrueVSize := 8;
     GetElementDofs := fun _ => [0; 1; 2; 3; 4; 5; 6; 7];
     GetLexicographicOrdering := [0; 1; 3; 2; 4; 5; 7; 6] |}.

Definition hex_form (tensor : bool) (order : Z) : BilinearForm R :=
  {| FESpace := hex_fes tensor order |}.

(** A caller's handle that owns nothing yet, before any effect. *)
Definition fresh_world : world R := {| handle := None; trace := [] |}.

(** A buffer whose every slot holds [v]. *)
Definition const_store (v : R) : store R := fun _ => v.

End RefInputs.

(** IEEE 754 binary64, the [double] of the source. *)
#[export] Instance float_Scalar : Scalar PrimFloat.float := {|
  zero := 0%float;
  one := 1%float;
  add := PrimFloat.add;
  sub := PrimFloat.sub;
  mul := PrimFloat.mul;
  div := PrimFloat.div;
  neg := PrimFloat.opp
|}.

(** The fraction n/d as a canonical rational. *)
Definition frac (n : Z) (d : positive) : Qc := Q2Qc (Qmake n d).

(** ** Further quantities of the kernels *)


(** The dof counts of the 3D kernel (lines 317-325). *)
Definition ndof_per_el (order : Z) : Z := (order + 1) ^ 3.
Definition nvert_dof_per_el : Z := 8.
Definition nedge_dof_per_el (order : Z) : Z := 12 * (order - 1).
Definition nface_dof_per_el (order : Z) : Z := 6 * (order - 1) ^ 2.
Definition nint_dof_per_el (order : Z) : Z := (order - 1) ^ 3.

(** The condition of the [MFEM_ASSERT] of lines 327-328. *)
Definition dof_count_asserted (order : Z) : bool :=
  nvert_dof_per_el + nedge_dof_per_el order + nface_dof_per_el order
  + nint_dof_per_el order =? ndof_per_el order.

(** [nnz_per_el] and [nnz_dup] (lines 345-349). *)
Definition nnz_per_el (order : Z) : Z := 27 * ndof_per_el order.
Definition nnz_dup (nel_ho order : Z) : Z := nel_ho * nnz_per_el order.

Section MoreInputs.
Context {R : Type} `{Scalar R}.

(** The reference corner of vertex [n] of a hexahedron along axis [a], in
    the vertex numbering the comment of lines 250-251 uses. *)
Definition hex_corner (n a : Z) : R :=
  nth (Z.to_nat a)
      (nth (Z.to_nat n)
           [ [zero; zero; zero]; [one; zero; zero]; [one; one; zero];
             [zero; one; zero];  [zero; zero; one]; [one; zero; one];
             [one; one; one];    [zero; one; one] ] []) zero.

(** The vertices of a parallelepiped: origin [o] and edge vectors [a], [b],
    [c], each given by its three coordinates. *)
Definition affine_hex (o a b c : Z -> R) (n k : Z) : R :=
  (o k + hex_corner n 0 * a k + hex_corner n 1 * b k + hex_corner n 2 * c k)%R.

(** The order-2 space on the unit square: vertex dofs 0..3, edge dofs 4..7,
    interior dof 8, and the lexicographic ordering of the biquadratic
    element. Its mesh has the one element of [unit_square_mesh]. *)
Definition refined_square_fes : FiniteElementSpace R :=
  {| GetMesh := unit_square_mesh;
     UsesTensorBasis := true;
     GetMaxElementOrder := 2;
     GetTrueVSize := 9;
     GetElementDofs := fun _ => [0; 1; 2; 3; 4; 5; 6; 7; 8];
     GetLexicographicOrdering := [0; 4; 1; 7; 8; 5; 3; 6; 2] |}.

(** The bilinear form on the low-order space of the 2x2 refinement. *)
Definition refined_square_form : BilinearForm R :=
  {| FESpace :=
       {| GetMesh := refined_square_mesh;
          UsesTensorBasis := true;
          GetMaxElementOrder := 1;
          GetTrueVSize := 9;
          GetElementDofs := fun _ => [];
          GetLexicographicOrdering := [0; 1; 3; 2] |} |}.

End MoreInputs.

Section OverlapInput.
Context {R : Type} `{Scalar R}.

(** A low-order mesh that breaks the embedding invariant: two fine cells,
    both placed at sub-cell 0 of element 0, the first with the identity as
    Jacobian and the second with half the identity. *)
Definition overlapping_cells_mesh : Mesh R :=
  {| GetNE := 2;
     Dimension := 2;
     GetElementVertices := fun _ => [];
     GetVertex := fun _ _ => zero;
     embeddings := fun _ => {| parent := 0; matrix := 0 |};
     ir := gl_rule2D;
     geom_J := fun n => if n <? 16 then scaled_identity_J one n
                        else scaled_identity_J half n |}.

End OverlapInput.

Section LineInput.
Context {R : Type} `{Scalar R}.

(** A one-dimensional mesh of one segment, and an order-3 space on it. *)
Definition segment_mesh : Mesh R :=
  {| GetNE := 1;
     Dimension := 1;
     GetElementVertices := fun _ => [0; 1];
     GetVertex := coords [[zero]; [one]];
     embeddings := fun _ => {| parent := 0; matrix := 0 |};
     ir := [];
     geom_J := fun _ => one |}.

Definition segment_fes : FiniteElementSpace R :=
  {| GetMesh := segment_mesh;
     UsesTensorBasis := true;
     GetMaxElementOrder := 3;
     GetTrueVSize := 4;
     GetElementDofs := fun _ => [0; 1; 2; 3];
     GetLexicographicOrdering := [0; 2; 3; 1] |}.

Definition segment_form : BilinearForm R := {| FESpace := segment_fes |}.

End LineInput.

Section SymmetricTensor.
Context {R : Type} `{Scalar R}.

(** The symmetric 3x3 matrix that six stored components (xx, xy, xz, yy, yz,
    zz) stand for, as the 3D assembly loop uses them (lines 439-444). *)
Definition sym_mat3 (l : list R) : Mat3 (R:=R) :=
  {| m11 := nth 0 l zero; m12 := nth 1 l zero; m13 := nth 2 l zero;
     m21 := nth 1 l zero; m22 := nth 3 l zero; m23 := nth 4 l zero;
     m31 := nth 2 l zero; m32 := nth 4 l zero; m33 := nth 5 l zero |}.

End SymmetricTensor.

(** The node pairs (i, j) = ((ix,iy), (jx,jy)) for which the loops of lines
    145-159 reach the call of [A_mat.Add], in the order they reach it: every
    node of the element against its neighbours inside the element. *)
Definition stencil_pairs (order : Z) : list ((Z * Z) * (Z * Z)) :=
  iy ← range 0 (order + 1);
  ix ← range 0 (order + 1);
  xshift ← range (-1) 2;
  if (ix + xshift <? 0) || (ix + xshift >=? order + 1) then []
  else
    yshift ← range (-1) 2;
    if (iy + yshift <? 0) || (iy + yshift >=? order + 1) then []
    else [((ix, iy), (ix + xshift, iy + yshift))].

Section LocalEntry.
Context {R : Type} `{Scalar R}.

(** [val] of lines 439-444: the trial corner (ix,iy,iz) against the test
    corner (jx,jy,jz) at the quadrature point (iqx,iqy,iqz), for the metric
    components J0..J5 loaded there. *)
Definition corner_val (iqx iqy iqz : Z) (J0 J1 J2 J3 J4 J5 : R)
    (jz jy jx iz iy ix : Z) : R :=
  let gj_x := (gfac jx * bfac jy iqy * bfac jz iqz)%R in
  let gj_y := (bfac jx iqx * gfac jy * bfac jz iqz)%R in
  let gj_z := (bfac jx iqx * bfac jy iqy * gfac jz)%R in
  let gi_x := (gfac ix * bfac iy iqy * bfac iz iqz)%R in
  let gi_y := (bfac ix iqx * gfac iy * bfac iz iqz)%R in
  let gi_z := (bfac ix iqx * bfac iy iqy * gfac iz)%R in
  ((gi_x * gj_x) * J0
   + (gi_y * gj_x + gi_x * gj_y) * J1
   + (gi_z * gj_x + gi_x * gj_z) * J2
   + (gi_y * gj_y) * J3
   + (gi_z * gj_y + gi_y * gj_z) * J4
   + (gi_z * gj_z) * J5)%R.

(** Binary digit [a] of a corner or quadrature-point number. *)
Definition bit (n a : Z) : Z := (n / 2 ^ a) mod 2.

(** The sum, over the eight quadrature points in loop order, of [val] for
    local corners [i] (trial) and [j] (test) of sub-cell [k]. *)
Definition local_entry (ncomp nq nk : Z) (invJ : store R) (iel_ho k : Z)
    (i j : Z) : R :=
  fold_left
    (fun acc iq =>
       (acc + corner_val (bit iq 0) (bit iq 1) (bit iq 2)
                         (invJ (idx4 ncomp nq nk 0 iq k iel_ho))
                         (invJ (idx4 ncomp nq nk 1 iq k iel_ho))
                         (invJ (idx4 ncomp nq nk 2 iq k iel_ho))
                         (invJ (idx4 ncomp nq nk 3 iq k iel_ho))
                         (invJ (idx4 ncomp nq nk 4 iq k iel_ho))
                         (invJ (idx4 ncomp nq nk 5 iq k iel_ho))
                         (bit j 2) (bit j 1) (bit j 0)
                         (bit i 2) (bit i 1) (bit i 0))%R)
    (range 0 8) zero.

End LocalEntry.

(** Does the node pair belong to the row of node (ix,iy)? *)
Definition in_row (ix iy : Z) (ij : (Z * Z) * (Z * Z)) : bool :=
  (ij.1.1 =? ix) && (ij.1.2 =? iy).

Section RowSum.
Context {R : Type} `{Scalar R}.

(** The total of the values the [xshift] and [yshift] loops (lines 150-197)
    hand to [A_mat.Add] for the row of node (ix,iy): the same loops, with
    the addition into the matrix replaced by an addition to a running sum. *)
Definition row_sum2D (order ncomp nq nk : Z) (invJ : store R)
    (iel_ho ix iy : Z) : R :=
  for_ (-1) 2 (fun xshift acc =>
    let jx := ix + xshift in
    if (jx <? 0) || (jx >=? order + 1) then acc
    else for_ (-1) 2 (fun yshift acc =>
           let jy := iy + yshift in
           if (jy <? 0) || (jy >=? order + 1) then acc
           else (acc + pair_val order ncomp nq nk invJ iel_ho ix iy jx jy)%R)
         acc) zero.

End RowSum.

(** * Properties *)

(** ** Counting loops *)

Lemma In_range (lo hi k : Z) : In k (range lo hi) <-> lo <= k < hi.
Proof.
  unfold range. rewrite in_map_iff. split.
  - intros (n & <- & Hn). apply in_seq in Hn. lia.
  - intros Hk. exists (Z.to_nat (k - lo)). split; [lia|].
    apply in_seq. lia.
Qed.

Lemma NoDup_range (lo hi : Z) : List.NoDup (range lo hi).
Proof.
  unfold range. apply Finite.Injective_map_NoDup.
  - intros a b Hab. lia.
  - apply seq_NoDup.
Qed.

Lemma range_empty (lo hi : Z) : hi <= lo -> range lo hi = [].
Proof.
  intros Hle. unfold range. replace (Z.to_nat (hi - lo)) with 0%nat by lia.
  reflexivity.
Qed.

Section Loops.
Context {S : Type}.

(** A property kept by every iteration holds after the loop. *)
Lemma for_invariant (P : S -> Prop) (lo hi : Z) (body : Z -> S -> S) (s : S) :
  P s ->
  (forall i t, lo <= i < hi -> P t -> P (body i t)) ->
  P (for_ lo hi body s).
Proof.
  unfold for_. intros Hs Hstep.
  assert (Hin : forall i, In i (range lo hi) -> lo <= i < hi)
    by (intros i; apply In_range).
  revert s Hs. induction (range lo hi) as [|i l IH]; intros s Hs; simpl.
  - exact Hs.
  - apply IH.
    + intros j Hj. apply Hin. now right.
    + apply Hstep; [apply Hin; now left | exact Hs].
Qed.

(** Two loops over the same range whose bodies keep a relation between
    their states end in related states. *)
Lemma for_related {T : Type} (Q : S -> T -> Prop) (lo hi : Z)
    (body : Z -> S -> S) (body' : Z -> T -> T) (s : S) (t : T) :
  Q s t ->
  (forall i s t, lo <= i < hi -> Q s t -> Q (body i s) (body' i t)) ->
  Q (for_ lo hi body s) (for_ lo hi body' t).
Proof.
  unfold for_. intros Hst Hstep.
  assert (Hin : forall i, In i (range lo hi) -> lo <= i < hi)
    by (intros i; apply In_range).
  revert s t Hst. induction (range lo hi) as [|i l IH]; intros s t Hst; simpl.
  - exact Hst.
  - apply IH.
    + intros j Hj. apply Hin. now right.
    + apply Hstep; [apply Hin; now left | exact Hst].
Qed.

Lemma for_ext (lo hi : Z) (body body' : Z -> S -> S) (s : S) :
  (forall i t, lo <= i < hi -> body i t = body' i t) ->
  for_ lo hi body s = for_ lo hi body' s.
Proof.
  intros Hext. apply (for_related eq); [reflexivity|].
  intros i t t' Hi ->. now apply Hext.
Qed.

End Loops.

(** ** Writes into flat storage *)

Section Stores.
Context {R : Type}.

Lemma upd_eq (s : store R) (i : Z) (v : R) : upd s i v i = v.
Proof. unfold upd. now rewrite Z.eqb_refl. Qed.

Lemma upd_ne (s : store R) (i j : Z) (v : R) : j <> i -> upd s i v j = s j.
Proof. unfold upd. intros Hne. destruct (Z.eqb_spec j i); congruence. Qed.

(** A slot no iteration writes keeps its value. *)
Lemma for_store_frame (lo hi : Z) (body : Z -> store R -> store R) (j : Z) :
  (forall i s, lo <= i < hi -> body i s j = s j) ->
  forall s, for_ lo hi body s j = s j.
Proof.
  intros Hframe s.
  apply (for_invariant (fun t => t j = s j)); [reflexivity|].
  intros i t Hi Ht. now rewrite Hframe.
Qed.

(** A slot that iteration [i0] sets to [v], whatever the store was, and that
    no other iteration writes, holds [v] after the loop. *)
Lemma for_store_at (lo hi : Z) (body : Z -> store R -> store R)
    (i0 j : Z) (v : R) :
  lo <= i0 < hi ->
  (forall s, body i0 s j = v) ->
  (forall i s, lo <= i < hi -> i <> i0 -> body i s j = s j) ->
  forall s, for_ lo hi body s j = v.
Proof.
  intros Hi0 Hset Hframe s. unfold for_.
  assert (Hin : In i0 (range lo hi)) by now apply In_range.
  assert (Hall : forall i, In i (range lo hi) -> lo <= i < hi)
    by (intros i; apply In_range).
  revert s Hin. induction (range lo hi) as [|x l IH] using rev_ind;
    intros s Hin; [destruct Hin|].
  rewrite fold_left_app. simpl.
  destruct (Z.eq_dec x i0) as [->|Hne]; [apply Hset|].
  rewrite Hframe; [| apply Hall, in_or_app; right; now left | exact Hne].
  apply IH.
  - intros i Hi. apply Hall, in_or_app. now left.
  - apply in_app_or in Hin. destruct Hin as [Hin|[Hx|[]]]; [exact Hin|congruence].
Qed.

End Stores.

(** Mixed-radix offsets: a digit below its radix can be read back. *)
Lemma digit_inj (n a b a' b' : Z) :
  0 <= a < n -> 0 <= a' < n -> a + n * b = a' + n * b' -> a = a' /\ b = b'.
Proof.
  intros Ha Ha' Heq.
  assert (Hb : b = b') by nia.
  subst b'. split; [lia | reflexivity].
Qed.

(** The view of [Reshape] addresses distinct slots for distinct in-range
    index tuples. *)
Lemma idx4_inj (n0 n1 n2 : Z) (i0 i1 i2 i3 j0 j1 j2 j3 : Z) :
  0 <= i0 < n0 -> 0 <= j0 < n0 ->
  0 <= i1 < n1 -> 0 <= j1 < n1 ->
  0 <= i2 < n2 -> 0 <= j2 < n2 ->
  idx4 n0 n1 n2 i0 i1 i2 i3 = idx4 n0 n1 n2 j0 j1 j2 j3 ->
  i0 = j0 /\ i1 = j1 /\ i2 = j2 /\ i3 = j3.
Proof.
  unfold idx4. intros H0 H0' H1 H1' H2 H2' Heq.
  apply digit_inj in Heq as [-> Heq]; [|lia|lia].
  apply digit_inj in Heq as [-> Heq]; [|lia|lia].
  apply digit_inj in Heq as [-> ->]; [|lia|lia].
  repeat split.
Qed.

(** ** The geometry pass fills the metric buffer *)

Section MetricBuffer.
Context {R : Type}.
Variables (ncomp nq nk ne : Z).
Variable emb : Z -> Embedding.
Variable point : Z -> Z -> store R -> store R.
Variable val : Z -> Z -> Z -> R.

Let at_ (e iq c : Z) : Z :=
  idx4 ncomp nq nk c iq (matrix (emb e)) (parent (emb e)).

Hypothesis emb_range : forall e, 0 <= e < ne -> 0 <= matrix (emb e) < nk.
Hypothesis emb_inj :
  forall e e', 0 <= e < ne -> 0 <= e' < ne -> emb e = emb e' -> e = e'.
Hypothesis point_own :
  forall e iq c s, 0 <= c < ncomp -> point e iq s (at_ e iq c) = val e iq c.
Hypothesis point_other :
  forall e iq s j, (forall c, 0 <= c < ncomp -> j <> at_ e iq c) ->
                   point e iq s j = s j.

Lemma at_inj (e iq c e' iq' c' : Z) :
  0 <= e < ne -> 0 <= e' < ne ->
  0 <= iq < nq -> 0 <= iq' < nq ->
  0 <= c < ncomp -> 0 <= c' < ncomp ->
  at_ e iq c = at_ e' iq' c' -> e = e' /\ iq = iq' /\ c = c'.
Proof.
  intros He He' Hq Hq' Hc Hc' Heq. unfold at_ in Heq.
  apply idx4_inj in Heq as (-> & -> & Hm & Hp);
    [|lia|lia|lia|lia|now apply emb_range|now apply emb_range].
  repeat split. apply emb_inj; [exact He|exact He'|].
  destruct (emb e), (emb e'). simpl in *. congruence.
Qed.

(** After the loops over all fine cells and their quadrature points, the
    slot of (cell, point, component) holds the value computed for it. *)
Lemma metric_buffer_filled (s0 : store R) (e iq c : Z) :
  0 <= e < ne -> 0 <= iq < nq -> 0 <= c < ncomp ->
  for_ 0 ne (fun e' => for_ 0 nq (point e')) s0 (at_ e iq c) = val e iq c.
Proof.
  intros He Hq Hc.
  apply for_store_at with (i0 := e); [exact He| |].
  - intros s. apply for_store_at with (i0 := iq); [exact Hq| |].
    + intros t. now apply point_own.
    + intros iq' t Hq' Hne. apply point_other. intros c' Hc' Heq.
      apply at_inj in Heq; [|tauto..]. lia.
  - intros e' s He' Hne. apply for_store_frame.
    intros iq' t Hq'. apply point_other. intros c' Hc' Heq.
    apply at_inj in Heq; [|tauto..]. lia.
Qed.

End MetricBuffer.

Section Props2D.
Context {R : Type} `{Scalar R}.

(** The spec's triple for quadrature point [iq] of fine cell [e]. *)
Let triple (mesh_lor : Mesh R) (nq e iq : Z) : list R :=
  metric2D_spec (J2D mesh_lor nq 2 iq 0 0 e) (J2D mesh_lor nq 2 iq 1 0 e)
                (J2D mesh_lor nq 2 iq 0 1 e) (J2D mesh_lor nq 2 iq 1 1 e)
                (weight (ir_get (ir mesh_lor) iq)).

Lemma geom2D_point_own (mesh_lor : Mesh R) (order nq e iel_ho iref iq c : Z)
    (s : store R) :
  0 <= c < 3 ->
  geom2D_point mesh_lor order 2 nq e iel_ho iref iq s
               (idx4 3 nq (order ^ 2) c iq iref iel_ho)
  = nth (Z.to_nat c) (triple mesh_lor nq e iq) zero.
Proof.
  intros Hc. unfold geom2D_point, triple, metric2D_spec.
  change (2 * (2 + 1) / 2) with 3.
  assert (Hcases : c = 0 \/ c = 1 \/ c = 2) by lia.
  destruct Hcases as [-> | [-> | ->]]; simpl nth.
  - rewrite !upd_ne by (unfold idx4; lia). apply upd_eq.
  - rewrite upd_ne by (unfold idx4; lia). apply upd_eq.
  - apply upd_eq.
Qed.

Lemma geom2D_point_other (mesh_lor : Mesh R) (order nq e iel_ho iref iq j : Z)
    (s : store R) :
  (forall c, 0 <= c < 3 -> j <> idx4 3 nq (order ^ 2) c iq iref iel_ho) ->
  geom2D_point mesh_lor order 2 nq e iel_ho iref iq s j = s j.
Proof.
  intros Hj. unfold geom2D_point. change (2 * (2 + 1) / 2) with 3.
  rewrite !upd_ne; [reflexivity| apply Hj; lia..].
Qed.

Lemma geom2D_slot (mesh_lor : Mesh R) (order : Z) (invJ0 : store R)
    (e iq c : Z) :
  embeddings_wf mesh_lor (order ^ 2) ->
  0 <= e < GetNE mesh_lor ->
  0 <= iq < ir_size (ir mesh_lor) ->
  0 <= c < 3 ->
  geom2D mesh_lor order 2 invJ0
         (slot 2 order (ir_size (ir mesh_lor)) (embeddings mesh_lor e) iq c)
  = nth (Z.to_nat c) (triple mesh_lor (ir_size (ir mesh_lor)) e iq) zero.
Proof.
  intros [Hrange Hinj] He Hq Hc. unfold geom2D, geom2D_cell, slot.
  change (2 * (2 + 1) / 2) with 3.
  apply (metric_buffer_filled 3 (ir_size (ir mesh_lor)) (order ^ 2)
           (GetNE mesh_lor) (embeddings mesh_lor)
           (fun e' iq' =>
              geom2D_point mesh_lor order 2 (ir_size (ir mesh_lor)) e'
                           (parent (embeddings mesh_lor e'))
                           (matrix (embeddings mesh_lor e')) iq')
           (fun e' iq' c' =>
              nth (Z.to_nat c')
                  (triple mesh_lor (ir_size (ir mesh_lor)) e' iq') zero));
    try assumption.
  - intros e' iq' c' s Hc'. now apply geom2D_point_own.
  - intros e' iq' s j Hj. now apply geom2D_point_other.
Qed.

(** C3. In the 2D geometry pass, for every fine cell [e] and each of its
    quadrature points [iq], the three slots addressed by (parent element,
    sub-cell index of the embedding, quadrature point, component 0..2) hold
    w_detJ*(J12^2+J22^2), -w_detJ*(J12*J11+J22*J21) and
    w_detJ*(J11^2+J21^2), with w_detJ = weight/(J11*J22 - J21*J12); the
    embedding table is the one of the data model (in range, no position
    used twice). *)
Theorem geom2D_stores_metric (mesh_lor : Mesh R) (order : Z)
    (invJ0 : store R) (e iq : Z) :
  embeddings_wf mesh_lor (order ^ 2) ->
  0 <= e < GetNE mesh_lor ->
  0 <= iq < ir_size (ir mesh_lor) ->
  let nq := ir_size (ir mesh_lor) in
  let invJ := geom2D mesh_lor order 2 invJ0 in
  let emb := embeddings mesh_lor e in
  let J11 := J2D mesh_lor nq 2 iq 0 0 e in
  let J21 := J2D mesh_lor nq 2 iq 1 0 e in
  let J12 := J2D mesh_lor nq 2 iq 0 1 e in
  let J22 := J2D mesh_lor nq 2 iq 1 1 e in
  let w_detJ :=
    (weight (ir_get (ir mesh_lor) iq) / (J11 * J22 - J21 * J12))%R in
  invJ (slot 2 order nq emb iq 0) = (w_detJ * (J12 * J12 + J22 * J22))%R /\
  invJ (slot 2 order nq emb iq 1) = (- w_detJ * (J12 * J11 + J22 * J21))%R /\
  invJ (slot 2 order nq emb iq 2) = (w_detJ * (J11 * J11 + J21 * J21))%R.
Proof.
  intros Hwf He Hq. cbv zeta.
  repeat split.
  - now rewrite (geom2D_slot mesh_lor order invJ0 e iq 0) by (assumption || lia).
  - now rewrite (geom2D_slot mesh_lor order invJ0 e iq 1) by (assumption || lia).
  - now rewrite (geom2D_slot mesh_lor order invJ0 e iq 2) by (assumption || lia).
Qed.

End Props2D.

Lemma refined_square_wf {R : Type} `{Scalar R} :
  embeddings_wf (refined_square_mesh (R:=R)) (2 ^ 2).
Proof.
  split; simpl.
  - intros e He. lia.
  - intros e e' _ _ Heq. now injection Heq.
Qed.

(** C3 at the last cell of the 2x2 refinement, second quadrature point. *)
Lemma geom2D_stores_metric_witness :
  let invJ := geom2D (refined_square_mesh (R:=Qc)) 2 2 (const_store zero) in
  let emb := {| parent := 0; matrix := 3 |} in
  let w_detJ := (quarter / (half * half - zero * zero))%R in
  invJ (slot 2 2 4 emb 1 0) = (w_detJ * (zero * zero + half * half))%R /\
  invJ (slot 2 2 4 emb 1 1) = (- w_detJ * (zero * half + half * zero))%R /\
  invJ (slot 2 2 4 emb 1 2) = (w_detJ * (half * half + zero * zero))%R.
Proof.
  apply (geom2D_stores_metric (refined_square_mesh (R:=Qc)) 2
                              (const_store zero) 3 1).
  - apply refined_square_wf.
  - simpl. lia.
  - vm_compute. split; discriminate || reflexivity.
Defined.

(** ** The 2D stencil *)

Lemma fold_left_bind {A B S : Type} (f : S -> B -> S) (g : A -> list B)
    (l : list A) (s : S) :
  fold_left f (l ≫= g) s = fold_left (fun t x => fold_left f (g x) t) l s.
Proof.
  revert s. induction l as [|x l IH]; intros s; simpl; [reflexivity|].
  now rewrite fold_left_app, IH.
Qed.

Lemma fold_left_pointwise {A S : Type} (f g : S -> A -> S) (l : list A) (s : S) :
  (forall t x, f t x = g t x) -> fold_left f l s = fold_left g l s.
Proof.
  intros Hfg. revert s. induction l as [|x l IH]; intros s; simpl;
    [reflexivity|]. now rewrite Hfg, IH.
Qed.

Lemma In_bind {A B : Type} (g : A -> list B) (l : list A) (y : B) :
  In y (l ≫= g) <-> exists x, In x l /\ In y (g x).
Proof.
  induction l as [|x l IH]; simpl.
  - split; [intros []|intros (x & [] & _)].
  - rewrite in_app_iff, IH. split.
    + intros [Hy|(x' & Hx' & Hy)]; eauto.
    + intros (x' & [->|Hx'] & Hy); eauto.
Qed.

Lemma NoDup_bind_pairs (xs ys : list Z) :
  List.NoDup xs -> List.NoDup ys ->
  List.NoDup (ky ← ys; kx ← xs; [(kx, ky)]).
Proof.
  intros Hxs Hys. induction Hys as [|y ys Hy Hys IH]; simpl; [constructor|].
  apply List.NoDup_app.
  - clear -Hxs. induction Hxs as [|x xs Hx Hxs IH]; simpl; constructor.
    + intros Hin. apply In_bind in Hin as (x' & Hx' & [Heq|[]]).
      apply Hx. congruence.
    + exact IH.
  - exact IH.
  - intros [kx ky] Hin1 Hin2.
    apply In_bind in Hin1 as (x1 & _ & [Heq|[]]).
    apply In_bind in Hin2 as (y2 & Hy2 & Hin2).
    apply In_bind in Hin2 as (x2 & _ & [Heq2|[]]).
    apply Hy. congruence.
Qed.

Section Stencil2D.
Context {R : Type} `{Scalar R}.

(** [val] is the fold of the sub-cell contributions over [sub_cells], in
    the order of the list: the list is what the loops sum over. *)
Lemma pair_val_sub_cells (order ncomp nq nk : Z) (invJ : store R)
    (iel_ho ix iy jx jy : Z) :
  pair_val order ncomp nq nk invJ iel_ho ix iy jx jy
  = fold_left (fun val (k : Z * Z) =>
                 cell_term order ncomp nq nk invJ iel_ho ix iy jx jy
                           k.2 k.1 val)
              (sub_cells order ix iy jx jy) zero.
Proof.
  unfold pair_val, sub_cells, for_. cbv zeta. rewrite fold_left_bind.
  apply fold_left_pointwise. intros val ky.
  rewrite fold_left_bind. reflexivity.
Qed.

Lemma In_sub_cells (order ix iy jx jy kx ky : Z) :
  In (kx, ky) (sub_cells order ix iy jx jy) <->
  kx_begin ix jx <= kx < kx_end order ix jx /\
  kx_begin iy jy <= ky < kx_end order iy jy.
Proof.
  unfold sub_cells. rewrite In_bind. split.
  - intros (y & Hy & Hin). apply In_bind in Hin as (x & Hx & [Heq|[]]).
    injection Heq as -> ->. apply In_range in Hy, Hx. tauto.
  - intros [Hx Hy]. exists ky. split; [now apply In_range|].
    apply In_bind. exists kx. split; [now apply In_range|now left].
Qed.

(** The bounds of the [kx] loop without max and min. *)
Lemma kx_range_iff (order ix jx kx : Z) :
  kx_begin ix jx <= kx < kx_end order ix jx <->
  (ix - 1 <= kx /\ 0 <= kx) /\ jx - 1 <= kx /\
  (kx <= ix /\ kx <= order - 1) /\ kx <= jx.
Proof.
  unfold kx_begin, kx_end.
  rewrite Z.add_1_r, Z.lt_succ_r, !Z.max_lub_iff, !Z.min_glb_iff. tauto.
Qed.

(** On every sub-cell summed over, and at both quadrature points per axis,
    the four offsets into [btab] lie in 0..3: the table is never read
    outside its bounds. *)
Lemma btab_offsets_in_range (order ix iy jx jy kx ky iqx iqy : Z) :
  In (kx, ky) (sub_cells order ix iy jx jy) ->
  0 <= iqx < 2 -> 0 <= iqy < 2 ->
  0 <= (kx - ix + 1) * 2 + iqx < 4 /\ 0 <= (ky - iy + 1) * 2 + iqy < 4 /\
  0 <= (kx - jx + 1) * 2 + iqx < 4 /\ 0 <= (ky - jy + 1) * 2 + iqy < 4.
Proof.
  rewrite In_sub_cells, !kx_range_iff. lia.
Qed.

(** C4. For a node pair i = (ix,iy), j = (jx,jy) the sub-cells (kx,ky) the
    2D assembler sums over are exactly those with
    max(ix-1,0,jx-1) <= kx <= min(ix,jx,p-1) and
    max(iy-1,0,jy-1) <= ky <= min(iy,jy,p-1), each once; these are the
    sub-cells 0..p-1 per axis that have both nodes among their corners.
    This holds for all indices, so in particular for the pairs of the
    stencil (0 <= ix,jx,iy,jy <= p, |jx-ix| <= 1, |jy-iy| <= 1). *)
Theorem sub_cells_overlap_range (order ncomp nq nk : Z) (invJ : store R)
    (iel_ho ix iy jx jy kx ky : Z) :
  pair_val order ncomp nq nk invJ iel_ho ix iy jx jy
  = fold_left (fun val (k : Z * Z) =>
                 cell_term order ncomp nq nk invJ iel_ho ix iy jx jy
                           k.2 k.1 val)
              (sub_cells order ix iy jx jy) zero /\
  List.NoDup (sub_cells order ix iy jx jy) /\
  (In (kx, ky) (sub_cells order ix iy jx jy) <->
   (Z.max (Z.max (ix - 1) 0) (jx - 1) <= kx <= Z.min (Z.min ix jx) (order - 1)) /\
   (Z.max (Z.max (iy - 1) 0) (jy - 1) <= ky <= Z.min (Z.min iy jy) (order - 1))) /\
  (In (kx, ky) (sub_cells order ix iy jx jy) <->
   (0 <= kx < order /\ kx <= ix <= kx + 1 /\ kx <= jx <= kx + 1) /\
   (0 <= ky < order /\ ky <= iy <= ky + 1 /\ ky <= jy <= ky + 1)).
Proof.
  split; [apply pair_val_sub_cells|].
  split; [apply NoDup_bind_pairs; apply NoDup_range|].
  rewrite In_sub_cells, !kx_range_iff, !Z.max_lub_iff, !Z.min_glb_iff.
  split; lia.
Qed.

Section Commutative.
Hypothesis add_comm : forall a b : R, (a + b)%R = (b + a)%R.
Hypothesis mul_comm : forall a b : R, (a * b)%R = (b * a)%R.

Lemma quad_term_symmetric (order ncomp nq nk : Z) (invJ : store R)
    (iel_ho ix iy jx jy kx ky iqy iqx : Z) (val : R) :
  quad_term order ncomp nq nk invJ iel_ho ix iy jx jy kx ky iqy iqx val
  = quad_term order ncomp nq nk invJ iel_ho jx jy ix iy kx ky iqy iqx val.
Proof.
  unfold quad_term. cbv zeta.
  set (a := (btab ((ky - iy + 1) * 2 + iqy) * _)%R).
  set (b := (btab ((kx - ix + 1) * 2 + iqx) * _)%R).
  set (c := (btab ((ky - jy + 1) * 2 + iqy) * _)%R).
  set (d := (btab ((kx - jx + 1) * 2 + iqx) * _)%R).
  rewrite (mul_comm c a), (mul_comm d b), (mul_comm d a), (mul_comm c b).
  now rewrite (add_comm (a * d)%R (b * c)%R).
Qed.

Lemma kx_begin_comm (ix jx : Z) : kx_begin ix jx = kx_begin jx ix.
Proof.
  unfold kx_begin.
  rewrite <- Z.max_assoc, (Z.max_comm 0 (jx - 1)). apply Z.max_comm.
Qed.

Lemma kx_end_comm (order ix jx : Z) : kx_end order ix jx = kx_end order jx ix.
Proof.
  unfold kx_end. f_equal.
  rewrite <- Z.min_assoc, (Z.min_comm (order - 1) jx). apply Z.min_comm.
Qed.

(** C5. The value the 2D assembler accumulates for the node pair (i,j) of an
    element equals the one it accumulates for (j,i): swapping the nodes
    swaps the gradient components (a,b) with (c,d), which leaves
    a*c*M_xx + (b*c+a*d)*M_xy + b*d*M_yy unchanged, and the sub-cells and
    quadrature points summed over are the same, in the same order. Only
    commutativity of the scalar addition and multiplication is used. *)
Theorem pair_val_symmetric (order ncomp nq nk : Z) (invJ : store R)
    (iel_ho ix iy jx jy : Z) :
  pair_val order ncomp nq nk invJ iel_ho ix iy jx jy
  = pair_val order ncomp nq nk invJ iel_ho jx jy ix iy.
Proof.
  unfold pair_val. cbv zeta.
  rewrite (kx_begin_comm jx ix), (kx_begin_comm jy iy),
          (kx_end_comm order jx ix), (kx_end_comm order jy iy).
  apply for_ext. intros ky v _.
  apply for_ext. intros kx v' _.
  unfold cell_term.
  apply for_ext. intros iqy v'' _.
  apply for_ext. intros iqx v''' _.
  apply quad_term_symmetric.
Qed.

End Commutative.
End Stencil2D.

(** C5 on rationals: the corner node (0,0) against its neighbour (1,1) in an
    order-2 element, over the metric of the 2x2 refined unit square. *)
Lemma pair_val_symmetric_witness :
  pair_val 2 3 4 4 (geom2D (refined_square_mesh (R:=Qc)) 2 2 (const_store zero))
           0 0 0 1 1
  = pair_val 2 3 4 4 (geom2D (refined_square_mesh (R:=Qc)) 2 2 (const_store zero))
             0 1 1 0 0.
Proof.
  apply (pair_val_symmetric (R:=Qc)).
  - exact Qcplus_comm.
  - exact Qcmult_comm.
Defined.

(** ** Elimination of the essential dofs *)

Section Elimination.
Context {R : Type} `{Scalar R}.

Lemma entry_EliminateRowCol (rc i j : Z) (m : gmap (Z * Z) R) :
  entry (EliminateRowCol rc m) i j
  = match m !! (i, j) with
    | Some v => if bool_decide ((i = rc \/ j = rc) /\ i <> j) then zero else v
    | None => zero
    end.
Proof.
  unfold entry, EliminateRowCol. rewrite map_lookup_imap.
  destruct (m !! (i, j)) as [v|]; simpl; [|reflexivity].
  now destruct (bool_decide _).
Qed.

Lemma EliminateRowCol_diag (rc i : Z) (m : gmap (Z * Z) R) :
  entry (EliminateRowCol rc m) i i = entry m i i.
Proof.
  rewrite entry_EliminateRowCol. unfold entry.
  destruct (m !! (i, i)) as [v|]; simpl; [|reflexivity].
  rewrite bool_decide_eq_false_2; [reflexivity|]. intros [_ Hne]. now apply Hne.
Qed.

Lemma EliminateRowCol_zero (rc i j : Z) (m : gmap (Z * Z) R) :
  entry m i j = zero -> entry (EliminateRowCol rc m) i j = zero.
Proof.
  rewrite entry_EliminateRowCol. unfold entry.
  destruct (m !! (i, j)) as [v|]; simpl; [|reflexivity].
  intros ->. now destruct (bool_decide _).
Qed.

Lemma EliminateRowCol_row_col (rc i j : Z) (m : gmap (Z * Z) R) :
  (i = rc \/ j = rc) -> i <> j -> entry (EliminateRowCol rc m) i j = zero.
Proof.
  intros Hrc Hne. rewrite entry_EliminateRowCol.
  destruct (m !! (i, j)) as [v|]; [|reflexivity].
  now rewrite bool_decide_eq_true_2.
Qed.

Lemma eliminate_all_diag (ess_dofs : list Z) (A_mat : gmap (Z * Z) R) (i : Z) :
  entry (eliminate_all ess_dofs A_mat) i i = entry A_mat i i.
Proof.
  unfold eliminate_all. revert A_mat.
  induction ess_dofs as [|x l IH]; intros A_mat; simpl; [reflexivity|].
  rewrite IH. apply EliminateRowCol_diag.
Qed.

Lemma eliminate_all_zero (ess_dofs : list Z) (A_mat : gmap (Z * Z) R) (i j : Z) :
  entry A_mat i j = zero -> entry (eliminate_all ess_dofs A_mat) i j = zero.
Proof.
  unfold eliminate_all. revert A_mat.
  induction ess_dofs as [|x l IH]; intros A_mat Hz; simpl; [exact Hz|].
  apply IH. now apply EliminateRowCol_zero.
Qed.

Lemma eliminate_all_row_col (ess_dofs : list Z) (A_mat : gmap (Z * Z) R)
    (rc i j : Z) :
  In rc ess_dofs -> (i = rc \/ j = rc) -> i <> j ->
  entry (eliminate_all ess_dofs A_mat) i j = zero.
Proof.
  intros Hin Hrc Hne. revert A_mat.
  induction ess_dofs as [|x l IH]; intros A_mat; [destruct Hin|].
  change (eliminate_all (x :: l) A_mat)
    with (eliminate_all l (EliminateRowCol x A_mat)).
  destruct (Z.eq_dec x rc) as [->|Hx].
  - apply eliminate_all_zero. now apply EliminateRowCol_row_col.
  - apply IH. destruct Hin as [Heq|Hin]; [congruence|exact Hin].
Qed.

Lemma eliminate_all_empty (ess_dofs : list Z) :
  eliminate_all ess_dofs (∅ : gmap (Z * Z) R) = ∅.
Proof.
  unfold eliminate_all. induction ess_dofs as [|x l IH]; simpl; [reflexivity|].
  unfold EliminateRowCol at 2. now rewrite map_imap_empty.
Qed.

(** C2. After the elimination loop over the essential dofs, for every
    essential dof [i] every off-diagonal entry of row [i] and of column [i]
    is zero, and the diagonal entry (i,i) is the one the matrix had before
    the loop. *)
Theorem elimination_keeps_diagonal (ess_dofs : list Z)
    (A_mat : gmap (Z * Z) R) (i : Z) :
  In i ess_dofs ->
  (forall j, j <> i ->
             entry (eliminate_all ess_dofs A_mat) i j = zero /\
             entry (eliminate_all ess_dofs A_mat) j i = zero) /\
  entry (eliminate_all ess_dofs A_mat) i i = entry A_mat i i.
Proof.
  intros Hin. split; [|apply eliminate_all_diag].
  intros j Hne. split.
  - apply (eliminate_all_row_col ess_dofs A_mat i); [exact Hin|now left|congruence].
  - apply (eliminate_all_row_col ess_dofs A_mat i); [exact Hin|now right|exact Hne].
Qed.

End Elimination.

(** C2 on the unit-square matrix with the essential dofs 0 and 2, at dof 2. *)
Lemma elimination_keeps_diagonal_witness :
  let A_mat := Assemble2DBatchedLOR (R:=Qc) 1 unit_square_mesh unit_square_mesh
                                    unit_square_fes (const_store zero) ∅ in
  (forall j, j <> 2 ->
             entry (eliminate_all [0; 2] A_mat) 2 j = zero /\
             entry (eliminate_all [0; 2] A_mat) j 2 = zero) /\
  entry (eliminate_all [0; 2] A_mat) 2 2 = entry A_mat 2 2.
Proof.
  apply (elimination_keeps_diagonal (R:=Qc)). simpl. tauto.
Defined.

(** ** The 3D kernel leaves the global matrix alone *)

Section Frame3D.
Context {R : Type} `{Scalar R}.

Lemma subcell3D_frame (order ncomp nq nk nd1d : Z) (invJ : store R)
    (dofs lex_map : list Z) (iel_ho kz ky kx : Z) (st : state3D) :
  A_mat3 (subcell3D order ncomp nq nk nd1d invJ dofs lex_map iel_ho kz ky kx st)
  = A_mat3 st.
Proof.
  unfold subcell3D. cbv zeta.
  apply (for_invariant (fun t => A_mat3 t = A_mat3 st)); [reflexivity|].
  intros iqz t _ Ht.
  apply (for_invariant (fun t => A_mat3 t = A_mat3 st)); [exact Ht|].
  clear t Ht. intros iqy t _ Ht.
  apply (for_invariant (fun t => A_mat3 t = A_mat3 st)); [exact Ht|].
  clear t Ht. intros iqx t _ Ht. unfold quad3D_step. cbv zeta.
  apply (for_invariant (fun t => A_mat3 t = A_mat3 st)); [exact Ht|].
  clear t Ht. intros jz t _ Ht.
  apply (for_invariant (fun t => A_mat3 t = A_mat3 st)); [exact Ht|].
  clear t Ht. intros jy t _ Ht.
  apply (for_invariant (fun t => A_mat3 t = A_mat3 st)); [exact Ht|].
  clear t Ht. intros jx t _ Ht. unfold corner_j_step. cbv zeta.
  apply (for_invariant (fun t => A_mat3 t = A_mat3 st)); [exact Ht|].
  clear t Ht. intros iz t _ Ht.
  apply (for_invariant (fun t => A_mat3 t = A_mat3 st)); [exact Ht|].
  clear t Ht. intros iy t _ Ht.
  apply (for_invariant (fun t => A_mat3 t = A_mat3 st)); [exact Ht|].
  clear t Ht. intros ix t _ Ht. exact Ht.
Qed.

Lemma element3D_frame (order ncomp nq nk nd1d : Z) (invJ : store R)
    (fes_ho : FiniteElementSpace R) (lex_map : list Z) (iel_ho : Z)
    (st : state3D) :
  A_mat3 (element3D order ncomp nq nk nd1d invJ fes_ho lex_map iel_ho st)
  = A_mat3 st.
Proof.
  unfold element3D. cbv zeta.
  apply (for_invariant (fun t => A_mat3 t = A_mat3 st)); [reflexivity|].
  intros kz t _ Ht.
  apply (for_invariant (fun t => A_mat3 t = A_mat3 st)); [exact Ht|].
  clear t Ht. intros ky t _ Ht.
  apply (for_invariant (fun t => A_mat3 t = A_mat3 st)); [exact Ht|].
  clear t Ht. intros kx t _ Ht.
  now rewrite subcell3D_frame.
Qed.

(** The kernel returns the matrix it was given. *)
Lemma Assemble3DBatchedLOR_frame (order : Z) (mesh_lor mesh_ho : Mesh R)
    (fes_ho : FiniteElementSpace R) (invJ0 : store R) (lm0 : list R)
    (A_mat : gmap (Z * Z) R) :
  Assemble3DBatchedLOR order mesh_lor mesh_ho fes_ho invJ0 lm0 A_mat = A_mat.
Proof.
  unfold Assemble3DBatchedLOR, run3D. cbv zeta.
  apply (for_invariant (fun t => A_mat3 t = A_mat)); [reflexivity|].
  intros iel_ho t _ Ht. now rewrite element3D_frame.
Qed.

End Frame3D.

(** ** The driver *)

Section DriverProps.
Context {R : Type} `{Scalar R}.

Ltac outside_switch Hout :=
  match goal with
  | |- context [match ?order with _ => _ end] =>
      destruct order as [|p|p]; try reflexivity;
      do 5 (try (destruct p as [p|p|]; try reflexivity));
      exfalso; apply Hout; lia
  end.

Ltac inside_switch Hin order :=
  assert (Hcases : order = 1 \/ order = 2 \/ order = 3 \/ order = 4 \/
                   order = 5 \/ order = 6 \/ order = 7 \/ order = 8 \/
                   order = 9 \/ order = 10 \/ order = 11 \/ order = 12 \/
                   order = 13 \/ order = 14 \/ order = 15 \/ order = 16)
    by lia;
  repeat (destruct Hcases as [-> | Hcases]; [reflexivity|]);
  subst order; reflexivity.

Lemma switch2D_outside (order : Z) (mesh_lor mesh_ho : Mesh R)
    (fes_ho : FiniteElementSpace R) (invJ0 : store R)
    (A_mat : gmap (Z * Z) R) :
  ~ 1 <= order <= 16 ->
  switch2D order mesh_lor mesh_ho fes_ho invJ0 A_mat = ret A_mat.
Proof. intros Hout. unfold switch2D. outside_switch Hout. Qed.

Lemma switch3D_outside (order : Z) (mesh_lor mesh_ho : Mesh R)
    (fes_ho : FiniteElementSpace R) (invJ0 : store R) (lm0 : list R)
    (A_mat : gmap (Z * Z) R) :
  ~ 1 <= order <= 16 ->
  switch3D order mesh_lor mesh_ho fes_ho invJ0 lm0 A_mat = ret A_mat.
Proof. intros Hout. unfold switch3D. outside_switch Hout. Qed.

Lemma switch2D_inside (order : Z) (mesh_lor mesh_ho : Mesh R)
    (fes_ho : FiniteElementSpace R) (invJ0 : store R)
    (A_mat : gmap (Z * Z) R) :
  1 <= order <= 16 ->
  switch2D order mesh_lor mesh_ho fes_ho invJ0 A_mat
  = call2D order mesh_lor mesh_ho fes_ho invJ0 A_mat.
Proof. intros Hin. inside_switch Hin order. Qed.

Lemma switch3D_inside (order : Z) (mesh_lor mesh_ho : Mesh R)
    (fes_ho : FiniteElementSpace R) (invJ0 : store R) (lm0 : list R)
    (A_mat : gmap (Z * Z) R) :
  1 <= order <= 16 ->
  switch3D order mesh_lor mesh_ho fes_ho invJ0 lm0 A_mat
  = call3D order mesh_lor mesh_ho fes_ho invJ0 lm0 A_mat.
Proof. intros Hin. inside_switch Hin order. Qed.

(** The elimination loop returns [eliminate_all] and records one event per
    essential dof. *)
Lemma eliminate_loop_run (ess_dofs : list Z) (A_mat : gmap (Z * Z) R)
    (w : world R) :
  eliminate_loop ess_dofs A_mat w
  = Returned (eliminate_all ess_dofs A_mat)
             {| handle := handle w;
                trace := trace w ++ List.map EvEliminate ess_dofs |}.
Proof.
  revert A_mat w. induction ess_dofs as [|i l IH]; intros A_mat w; simpl.
  - unfold ret. rewrite app_nil_r. now destruct w.
  - unfold bind, emit. rewrite IH. simpl. now rewrite <- app_assoc.
Qed.

(** What the 3D branch of the driver does, for any order: at most the
    kernel's event, and the matrix as it was. *)
Lemma switch3D_run (order : Z) (mesh_lor mesh_ho : Mesh R)
    (fes_ho : FiniteElementSpace R) (invJ0 : store R) (lm0 : list R)
    (A_mat : gmap (Z * Z) R) (w : world R) :
  exists evs,
    switch3D order mesh_lor mesh_ho fes_ho invJ0 lm0 A_mat w
    = Returned A_mat {| handle := handle w; trace := trace w ++ evs |}.
Proof.
  destruct (decide (1 <= order <= 16)) as [Hin|Hout].
  - exists [EvKernel 3 order]. rewrite switch3D_inside by exact Hin.
    unfold call3D, bind, emit, ret.
    now rewrite Assemble3DBatchedLOR_frame.
  - exists []. rewrite switch3D_outside by exact Hout.
    unfold ret. rewrite app_nil_r. now destruct w.
Qed.

(** C1. On the 3D path the kernel hands back the global matrix exactly as
    it received it, whatever the order and the meshes: the local 8x8
    matrices are computed and never scattered. The driver therefore leaves
    an empty matrix in the handle. *)
Theorem kernel3D_never_scatters (order : Z) (mesh_lor : Mesh R)
    (form_lor : BilinearForm R) (fes_ho : FiniteElementSpace R)
    (ess_dofs : list Z) (invJ0 : store R) (lm0 : list R) (w : world R) :
  UsesTensorBasis fes_ho = true ->
  Dimension (GetMesh fes_ho) = 3 ->
  (forall A_mat : gmap (Z * Z) R,
     Assemble3DBatchedLOR order mesh_lor (GetMesh fes_ho) fes_ho invJ0 lm0 A_mat
     = A_mat) /\
  output (AssembleBatchedLOR form_lor fes_ho ess_dofs invJ0 lm0 w) = Some ∅.
Proof.
  intros Htensor Hdim. split; [intros A_mat; apply Assemble3DBatchedLOR_frame|].
  unfold AssembleBatchedLOR, bind, MFEM_VERIFY, new_SparseMatrix, bind, emit, ret.
  rewrite Htensor, Hdim. simpl.
  match goal with
  | |- context [switch3D ?o ?ml ?mh ?f ?i ?l ?A ?w'] =>
      destruct (switch3D_run o ml mh f i l A w') as [evs ->]
  end.
  rewrite eliminate_loop_run. unfold Reset, Finalize. simpl.
  now rewrite eliminate_all_empty.
Qed.

(** C6. With a polynomial order outside 1..16 the driver, in any dimension,
    calls no kernel and raises no error: it creates the matrix, runs the
    elimination loop on it, finalizes it and hands it to the caller, with
    nothing stored in it. *)
Theorem unsupported_order_is_silent (form_lor : BilinearForm R)
    (fes_ho : FiniteElementSpace R) (ess_dofs : list Z)
    (invJ0 : store R) (lm0 : list R) (w : world R) :
  UsesTensorBasis fes_ho = true ->
  ~ 1 <= GetMaxElementOrder fes_ho <= 16 ->
  AssembleBatchedLOR form_lor fes_ho ess_dofs invJ0 lm0 w
  = Returned tt
      {| handle := Some ∅;
         trace := trace w
                  ++ [EvNewMatrix (GetTrueVSize fes_ho) (GetTrueVSize fes_ho)]
                  ++ List.map EvEliminate ess_dofs
                  ++ [EvFinalize; EvReset] |}.
Proof.
  intros Htensor Hout.
  unfold AssembleBatchedLOR, bind, MFEM_VERIFY, new_SparseMatrix, bind, emit, ret.
  rewrite Htensor. simpl.
  rewrite switch2D_outside, switch3D_outside by exact Hout.
  assert (Hsel : forall (b2 b3 : bool) (w' : world R),
            (if b2 then ret ∅ else if b3 then ret ∅ else ret ∅) w'
            = Returned (∅ : gmap (Z * Z) R) w')
    by (intros [] [] w'; reflexivity).
  unfold ret in Hsel. rewrite Hsel.
  rewrite eliminate_loop_run. unfold Reset, Finalize. simpl.
  rewrite eliminate_all_empty. f_equal. f_equal.
  now rewrite <- !app_assoc.
Qed.

(** C8. The tensor-basis check is the first thing the driver does. For a
    space without a tensor-product basis the call is cut short with the
    message, and the world is the one the call started in: no matrix was
    created, no kernel called, the handle not touched. For a space with a
    tensor-product basis the call goes on: it creates the matrix and
    returns with a matrix in the handle. *)
Theorem tensor_basis_checked_first (form_lor : BilinearForm R)
    (fes_ho : FiniteElementSpace R) (ess_dofs : list Z)
    (invJ0 : store R) (lm0 : list R) (w : world R) :
  if UsesTensorBasis fes_ho
  then exists A_mat evs,
         AssembleBatchedLOR form_lor fes_ho ess_dofs invJ0 lm0 w
         = Returned tt
             {| handle := Some A_mat;
                trace := trace w
                         ++ EvNewMatrix (GetTrueVSize fes_ho) (GetTrueVSize fes_ho)
                            :: evs |}
  else AssembleBatchedLOR form_lor fes_ho ess_dofs invJ0 lm0 w
       = Aborted "Batched LOR assembly requires tensor basis" w.
Proof.
  unfold AssembleBatchedLOR, bind, MFEM_VERIFY, new_SparseMatrix, bind, emit, ret.
  destruct (UsesTensorBasis fes_ho); [|reflexivity]. simpl.
  set (order := GetMaxElementOrder fes_ho).
  set (w1 := {| handle := handle w; trace := _ |}).
  assert (Hk : exists A_mat evs,
            (if Dimension (GetMesh fes_ho) =? 2
             then switch2D order (GetMesh (FESpace form_lor)) (GetMesh fes_ho)
                           fes_ho invJ0 ∅
             else if Dimension (GetMesh fes_ho) =? 3
                  then switch3D order (GetMesh (FESpace form_lor))
                                (GetMesh fes_ho) fes_ho invJ0 lm0 ∅
                  else fun w' => Returned ∅ w') w1
            = Returned A_mat {| handle := handle w1; trace := trace w1 ++ evs |}).
  { destruct (Dimension (GetMesh fes_ho) =? 2).
    - destruct (decide (1 <= order <= 16)) as [Hin|Hout].
      + rewrite switch2D_inside by exact Hin. unfold call2D, bind, emit, ret.
        eauto.
      + rewrite switch2D_outside by exact Hout. exists ∅, [].
        unfold ret. now rewrite app_nil_r.
    - destruct (Dimension (GetMesh fes_ho) =? 3).
      + destruct (switch3D_run order (GetMesh (FESpace form_lor))
                    (GetMesh fes_ho) fes_ho invJ0 lm0 ∅ w1) as [evs Hevs].
        eauto.
      + exists ∅, []. now rewrite app_nil_r. }
  destruct Hk as (A_mat & evs & ->).
  rewrite eliminate_loop_run. unfold Reset, Finalize. simpl.
  eexists _, _. f_equal. f_equal. rewrite <- !app_assoc. reflexivity.
Qed.

End DriverProps.

(** C1 on the sheared cell with an order-1 space and one essential dof. *)
Lemma kernel3D_never_scatters_witness :
  (forall A_mat : gmap (Z * Z) Qc,
     Assemble3DBatchedLOR 1 sheared_hex_mesh sheared_hex_mesh (hex_fes true 1)
                          (const_store zero) (replicate 64 zero) A_mat
     = A_mat) /\
  output (AssembleBatchedLOR (R:=Qc) (hex_form true 1) (hex_fes true 1) [0]
                             (const_store zero) (replicate 64 zero)
                             fresh_world)
  = Some ∅.
Proof.
  apply (kernel3D_never_scatters (R:=Qc) 1 sheared_hex_mesh (hex_form true 1)
                                 (hex_fes true 1) [0] (const_store zero)
                                 (replicate 64 zero) fresh_world);
    reflexivity.
Defined.

(** C6 for order 17 in three dimensions, with one essential dof. *)
Lemma unsupported_order_is_silent_witness :
  AssembleBatchedLOR (R:=Qc) (hex_form true 17) (hex_fes true 17) [3]
                     (const_store zero) (replicate 64 zero) fresh_world
  = Returned tt
      {| handle := Some ∅;
         trace := [EvNewMatrix 8 8; EvEliminate 3; EvFinalize; EvReset] |}.
Proof.
  apply (unsupported_order_is_silent (R:=Qc) (hex_form true 17)
                                     (hex_fes true 17) [3] (const_store zero)
                                     (replicate 64 zero) fresh_world).
  - reflexivity.
  - simpl. lia.
Defined.

(** ** The local matrix of a sub-cell *)

Section LocalMatrix.
Context {R : Type} `{Scalar R}.

Let same_local (s t : state3D (R:=R)) : Prop := local_mat s = local_mat t.

Lemma corner_j_step_local (nd1d : Z) (dofs lex_map : list Z) (kx ky kz : Z)
    (iqx iqy iqz : Z) (J0 J1 J2 J3 J4 J5 : R) (jz jy jx : Z)
    (s t : state3D) :
  same_local s t ->
  same_local
    (corner_j_step nd1d dofs lex_map kx ky kz iqx iqy iqz
                   J0 J1 J2 J3 J4 J5 jz jy jx s)
    (corner_j_step nd1d dofs lex_map kx ky kz iqx iqy iqz
                   J0 J1 J2 J3 J4 J5 jz jy jx t).
Proof.
  intros Hst. unfold corner_j_step. cbv zeta.
  apply (for_related same_local); [exact Hst|]. intros iz s1 t1 _ H1.
  apply (for_related same_local); [exact H1|]. intros iy s2 t2 _ H2.
  apply (for_related same_local); [exact H2|]. intros ix s3 t3 _ H3.
  unfold same_local, corner_i_step in *. simpl. now rewrite H3.
Qed.

(** C10. Every sub-cell iteration of the 3D kernel starts from a zeroed
    local matrix: the 8x8 matrix it ends with is the same whatever the
    state the iteration starts in (what earlier sub-cells and elements left
    in [local_mat], what the global matrix holds) and whatever the metric
    buffer holds outside the 6 components at the 8 quadrature points of this
    sub-cell of this element. *)
Theorem local_mat_fresh_per_subcell (order ncomp nq nk nd1d : Z)
    (invJ invJ' : store R) (dofs lex_map : list Z) (iel_ho kz ky kx : Z)
    (st st' : state3D) :
  List.length (local_mat st) = List.length (local_mat st') ->
  (forall c iq, 0 <= c < 6 -> 0 <= iq < 8 ->
     invJ (idx4 ncomp nq nk c iq (kx + ky * order + kz * order * order) iel_ho)
     = invJ' (idx4 ncomp nq nk c iq (kx + ky * order + kz * order * order) iel_ho)) ->
  local_mat (subcell3D order ncomp nq nk nd1d invJ dofs lex_map
                       iel_ho kz ky kx st)
  = local_mat (subcell3D order ncomp nq nk nd1d invJ' dofs lex_map
                         iel_ho kz ky kx st').
Proof.
  intros Hlen Hagree. unfold subcell3D. cbv zeta.
  apply (for_related same_local).
  { unfold same_local. simpl. now rewrite Hlen. }
  intros iqz s1 t1 Hz H1.
  apply (for_related same_local); [exact H1|]. intros iqy s2 t2 Hy H2.
  apply (for_related same_local); [exact H2|]. intros iqx s3 t3 Hx H3.
  unfold quad3D_step. cbv zeta.
  rewrite !Hagree by lia.
  apply (for_related same_local); [exact H3|]. intros jz s4 t4 _ H4.
  apply (for_related same_local); [exact H4|]. intros jy s5 t5 _ H5.
  apply (for_related same_local); [exact H5|]. intros jx s6 t6 _ H6.
  now apply corner_j_step_local.
Qed.

End LocalMatrix.

(** C10 on rationals: two runs of the single sub-cell of an order-1 element,
    from different local and global matrices and from metric buffers that
    differ outside the sub-cell's slots. *)
Lemma local_mat_fresh_per_subcell_witness :
  local_mat
    (subcell3D (R:=Qc) 1 6 8 1 2 (const_store one)
               [0; 1; 2; 3; 4; 5; 6; 7] [0; 1; 3; 2; 4; 5; 7; 6] 0 0 0 0
               {| local_mat := replicate 64 one; A_mat3 := ∅ |})
  = local_mat
      (subcell3D (R:=Qc) 1 6 8 1 2 (upd (const_store one) (-1) zero)
                 [0; 1; 2; 3; 4; 5; 6; 7] [0; 1; 3; 2; 4; 5; 7; 6] 0 0 0 0
                 {| local_mat := replicate 64 zero;
                    A_mat3 := {[ (0, 0) := one ]} |}).
Proof.
  apply (local_mat_fresh_per_subcell (R:=Qc)).
  - reflexivity.
  - intros c iq Hc Hiq. rewrite upd_ne; [reflexivity|]. unfold idx4. lia.
Defined.

(** ** The 3D geometry pass *)

Section Props3D.
Context {R : Type} `{Scalar R}.

Lemma geom3D_point_own (mesh_lor : Mesh R) (order nq e iel_ho iref iq c : Z)
    (s : store R) :
  0 <= c < 6 ->
  geom3D_point mesh_lor order 3 nq e iel_ho iref iq s
               (idx4 6 nq (order ^ 3) c iq iref iel_ho)
  = nth (Z.to_nat c) (point_metric3D mesh_lor e iq) zero.
Proof.
  intros Hc. unfold geom3D_point. change (3 * (3 + 1) / 2) with 6. cbv zeta.
  assert (Hcases : c = 0 \/ c = 1 \/ c = 2 \/ c = 3 \/ c = 4 \/ c = 5) by lia.
  destruct Hcases as [-> | [-> | [-> | [-> | [-> | ->]]]]];
    rewrite ?upd_ne by (unfold idx4; lia); apply upd_eq.
Qed.

Lemma geom3D_point_other (mesh_lor : Mesh R) (order nq e iel_ho iref iq j : Z)
    (s : store R) :
  (forall c, 0 <= c < 6 -> j <> idx4 6 nq (order ^ 3) c iq iref iel_ho) ->
  geom3D_point mesh_lor order 3 nq e iel_ho iref iq s j = s j.
Proof.
  intros Hj. unfold geom3D_point. change (3 * (3 + 1) / 2) with 6. cbv zeta.
  rewrite !upd_ne; [reflexivity| apply Hj; lia..].
Qed.

Lemma geom3D_slot (mesh_lor : Mesh R) (order : Z) (invJ0 : store R)
    (e iq c : Z) :
  embeddings_wf mesh_lor (order ^ 3) ->
  0 <= e < GetNE mesh_lor ->
  0 <= iq < ir_size (ir mesh_lor) ->
  0 <= c < 6 ->
  geom3D mesh_lor order 3 invJ0
         (slot 3 order (ir_size (ir mesh_lor)) (embeddings mesh_lor e) iq c)
  = nth (Z.to_nat c) (point_metric3D mesh_lor e iq) zero.
Proof.
  intros [Hrange Hinj] He Hq Hc. unfold geom3D, geom3D_cell, slot.
  change (3 * (3 + 1) / 2) with 6.
  apply (metric_buffer_filled 6 (ir_size (ir mesh_lor)) (order ^ 3)
           (GetNE mesh_lor) (embeddings mesh_lor)
           (fun e' iq' =>
              geom3D_point mesh_lor order 3 (ir_size (ir mesh_lor)) e'
                           (parent (embeddings mesh_lor e'))
                           (matrix (embeddings mesh_lor e')) iq')
           (fun e' iq' c' =>
              nth (Z.to_nat c') (point_metric3D mesh_lor e' iq') zero));
    try assumption.
  - intros e' iq' c' s Hc'. now apply geom3D_point_own.
  - intros e' iq' s j Hj. now apply geom3D_point_other.
Qed.

(** The six stored values pair the rows of [A]: they are the entries of
    A A^T, as written, with no algebra. *)
Lemma metric3D_pairs_rows (w_detJ : R) (A : Mat3) :
  metric3D w_detJ A = metric3D_rows w_detJ A.
Proof. reflexivity. Qed.

(** C9, as the code has it. In the 3D geometry pass, for every fine cell [e]
    and each of its quadrature points [iq], with J the Jacobian of the
    trilinear map of the cell's eight vertices at the point, detJ its
    cofactor expansion, A = adj(J) and w_detJ = weight/detJ, the six slots of
    (parent element, sub-cell index, quadrature point) hold w_detJ times the
    entries xx, xy, xz, yy, yz, zz of A A^T (the adjugate's rows paired),
    not of A^T A. *)
Theorem geom3D_stores_metric (mesh_lor : Mesh R) (order : Z)
    (invJ0 : store R) (e iq : Z) :
  embeddings_wf mesh_lor (order ^ 3) ->
  0 <= e < GetNE mesh_lor ->
  0 <= iq < ir_size (ir mesh_lor) ->
  let nq := ir_size (ir mesh_lor) in
  let p := ir_get (ir mesh_lor) iq in
  let J := jacobian3D (cell_vertices mesh_lor e) (ip_x p) (ip_y p) (ip_z p) in
  let w_detJ := (weight p / detJ3 J)%R in
  List.map (fun c => geom3D mesh_lor order 3 invJ0
                            (slot 3 order nq (embeddings mesh_lor e) iq c))
           [0; 1; 2; 3; 4; 5]
  = metric3D_rows w_detJ (adj3 J).
Proof.
  intros Hwf He Hq. cbv zeta. simpl List.map.
  rewrite !geom3D_slot by (assumption || lia).
  reflexivity.
Qed.

End Props3D.

Lemma sheared_hex_wf {R : Type} `{Scalar R} :
  embeddings_wf (sheared_hex_mesh (R:=R)) (1 ^ 3).
Proof.
  split; simpl.
  - intros e He. lia.
  - intros e e' He He' _. lia.
Qed.

(** C9 as amended, at the first corner of the sheared cell. *)
Lemma geom3D_stores_metric_witness :
  let J := jacobian3D (R:=Qc) (cell_vertices sheared_hex_mesh 0) zero zero zero in
  List.map (fun c => geom3D (R:=Qc) sheared_hex_mesh 1 3 (const_store zero)
                            (slot 3 1 8 {| parent := 0; matrix := 0 |} 0 c))
           [0; 1; 2; 3; 4; 5]
  = metric3D_rows (eighth / detJ3 J)%R (adj3 J).
Proof.
  apply (geom3D_stores_metric (R:=Qc) sheared_hex_mesh 1 (const_store zero) 0 0).
  - apply sheared_hex_wf.
  - simpl. lia.
  - vm_compute. split; discriminate || reflexivity.
Defined.

(** C9 as the specification words it fails on the sheared cell: at its first
    corner the xx slot holds 1/4 (the first row of the adjugate against
    itself), while w_detJ times the xx entry of A^T A is 1/8. *)
Lemma metric3D_is_not_AtA :
  let stored := geom3D (R:=Qc) sheared_hex_mesh 1 3 (const_store zero)
                       (slot 3 1 8 {| parent := 0; matrix := 0 |} 0 0) in
  let J := jacobian3D (R:=Qc) (cell_vertices sheared_hex_mesh 0) zero zero zero in
  let claimed := nth 0 (metric3D_spec (eighth / detJ3 J)%R (adj3 J)) zero in
  stored = frac 1 4 /\ claimed = frac 1 8 /\ stored <> claimed.
Proof.
  cbv zeta.
  assert (Hs : geom3D (R:=Qc) sheared_hex_mesh 1 3 (const_store zero)
                      (slot 3 1 8 {| parent := 0; matrix := 0 |} 0 0)
               = frac 1 4)
    by (apply Qc_is_canon; vm_compute; reflexivity).
  assert (Hc : nth 0 (metric3D_spec (R:=Qc)
                        (eighth / detJ3 (jacobian3D (cell_vertices sheared_hex_mesh 0)
                                                    zero zero zero))%R
                        (adj3 (jacobian3D (cell_vertices sheared_hex_mesh 0)
                                          zero zero zero))) zero
               = frac 1 8)
    by (apply Qc_is_canon; vm_compute; reflexivity).
  rewrite Hs, Hc. repeat split.
  intros Heq. apply (f_equal this) in Heq. vm_compute in Heq. discriminate.
Qed.

(** *** Over the rationals: the Jacobian, its determinant and its adjugate *)

Ltac qc_ring :=
  cbv [add sub mul neg one zero Qc_Scalar]; ring.

(** The trilinear map is affine in each reference coordinate, and the
    columns of [jacobian3D] are its slopes: the partial derivatives. *)
Lemma Jcol1_is_x_slope (v : Z -> Z -> Qc) (c : Z) (x x' y z : Qc) :
  (trilinear v c x' y z - trilinear v c x y z)%R
  = ((x' - x) * Jcol1 v c y z)%R.
Proof. unfold trilinear, Jcol1. qc_ring. Qed.

Lemma Jcol2_is_y_slope (v : Z -> Z -> Qc) (c : Z) (x y y' z : Qc) :
  (trilinear v c x y' z - trilinear v c x y z)%R
  = ((y' - y) * Jcol2 v c x z)%R.
Proof. unfold trilinear, Jcol2. qc_ring. Qed.

Lemma Jcol3_is_z_slope (v : Z -> Z -> Qc) (c : Z) (x y z z' : Qc) :
  (trilinear v c x y z' - trilinear v c x y z)%R
  = ((z' - z) * Jcol3 v c x y)%R.
Proof. unfold trilinear, Jcol3. qc_ring. Qed.

(** [detJ3] is the determinant. *)
Lemma detJ3_is_determinant (J : Mat3 (R:=Qc)) : detJ3 J = det3_leibniz J.
Proof. unfold detJ3, det3_leibniz. qc_ring. Qed.

(** [adj3] is the adjugate: adj(J) J = det(J) I. *)
Lemma adj3_is_adjugate (J : Mat3 (R:=Qc)) :
  mat3_mul (adj3 J) J = mat3_scalar (detJ3 J).
Proof.
  unfold mat3_mul, mat3_scalar, adj3, detJ3. simpl.
  f_equal; qc_ring.
Qed.

(** Over a commutative ring A A^T and A^T A differ in general, but both are
    symmetric, so six entries describe either. *)
Lemma rows_product_symmetric (A : Mat3 (R:=Qc)) :
  mat3_transpose (mat3_mul A (mat3_transpose A))
  = mat3_mul A (mat3_transpose A).
Proof. unfold mat3_mul, mat3_transpose. simpl. f_equal; qc_ring. Qed.

(** ** The reference case: one order-1 element on the unit square *)

Ltac qc_eval := apply Qc_is_canon; vm_compute; reflexivity.

(** The driver's run on the unit square: one 2D kernel call of order 1, no
    elimination, and the kernel's matrix in the handle. *)
Lemma unit_square_run {R : Type} `{Scalar R} (invJ0 : store R) (lm0 : list R) :
  AssembleBatchedLOR unit_square_form unit_square_fes [] invJ0 lm0 fresh_world
  = Returned tt
      {| handle := Some (Assemble2DBatchedLOR 1 unit_square_mesh
                           unit_square_mesh unit_square_fes invJ0 ∅);
         trace := [EvNewMatrix 4 4; EvKernel 2 1; EvFinalize; EvReset] |}.
Proof. reflexivity. Qed.

(** C7, as the code has it. One order-1 element covering the unit square,
    with no essential dofs and the two-point Gauss-Lobatto rule, assembles
    to the matrix with 1 on the diagonal, -1/2 between nodes that share an
    edge and 0 between opposite nodes, whatever the metric buffer held
    when allocated. *)
Theorem unit_square_stiffness (invJ0 : store Qc) (lm0 : list Qc) :
  output (AssembleBatchedLOR (R:=Qc) unit_square_form unit_square_fes []
                             invJ0 lm0 fresh_world)
  = Some (Assemble2DBatchedLOR 1 unit_square_mesh unit_square_mesh
                               unit_square_fes invJ0 ∅) /\
  has_stencil4 (R:=Qc) unit_square_fes
               (Assemble2DBatchedLOR 1 unit_square_mesh unit_square_mesh
                                     unit_square_fes invJ0 ∅)
               one (frac (-1) 2) zero.
Proof.
  split; [reflexivity|].
  unfold has_stencil4, node_pairs. simpl.
  repeat constructor; qc_eval.
Qed.

(** C7 as the specification words it fails: the diagonal entry of dof 0 is
    1, not 2/3, its edge neighbour's entry is -1/2, not -1/6, and the
    opposite node's entry is 0, not -1/3. *)
Lemma unit_square_is_not_exact_Q1 :
  let A_mat := Assemble2DBatchedLOR (R:=Qc) 1 unit_square_mesh unit_square_mesh
                                    unit_square_fes (const_store zero) ∅ in
  output (AssembleBatchedLOR (R:=Qc) unit_square_form unit_square_fes []
                             (const_store zero) [] fresh_world)
  = Some A_mat /\
  entry A_mat 0 0 = one /\
  entry A_mat 0 1 = frac (-1) 2 /\
  entry A_mat 0 2 = zero /\
  ~ has_stencil4 (R:=Qc) unit_square_fes A_mat
                 (frac 2 3) (frac (-1) 6) (frac (-1) 3).
Proof.
  cbv zeta. split; [reflexivity|].
  split; [qc_eval|]. split; [qc_eval|]. split; [qc_eval|].
  intros Hs. unfold has_stencil4, node_pairs in Hs. simpl in Hs.
  apply Forall_inv in Hs. apply (f_equal this) in Hs.
  vm_compute in Hs. discriminate.
Qed.

(** The same run in binary64 arithmetic: every value involved is a dyadic
    fraction, and the entries are exactly 1, -0.5 and 0. *)
Lemma unit_square_stiffness_binary64 (invJ0 : store PrimFloat.float) :
  has_stencil4 (R:=PrimFloat.float) unit_square_fes
               (Assemble2DBatchedLOR 1 unit_square_mesh unit_square_mesh
                                     unit_square_fes invJ0 ∅)
               1%float (-0.5)%float 0%float.
Proof.
  unfold has_stencil4, node_pairs. simpl.
  repeat constructor; vm_compute; reflexivity.
Qed.

(** Where the metric has no xy component, opposite nodes of an order-1
    element do not couple: at every quadrature point one of the two hat
    functions has a zero derivative in each direction. *)
Lemma opposite_nodes_decouple (invJ : store Qc) (iel_ho : Z) :
  (forall iq, 0 <= iq < 4 -> invJ (idx4 3 4 1 1 iq 0 iel_ho) = zero) ->
  pair_val 1 3 4 1 invJ iel_ho 0 0 1 1 = zero.
Proof.
  intros Hxy.
  cbv -[Qcplus Qcmult Qcopp Qcminus Qcdiv Q2Qc idx4].
  rewrite !Hxy by lia.
  cbv [zero Qc_Scalar]. ring.
Qed.

(** So on the unit square the value added for the opposite nodes (0,0) and
    (1,1) is zero for every four-point rule, whatever its weights: the
    entry -1/3 of the exactly integrated matrix cannot come out of this
    kernel. *)
Lemma opposite_nodes_zero_for_any_weights (rule : list (IntegrationPoint Qc))
    (invJ0 : store Qc) :
  ir_size rule = 4 ->
  pair_val 1 3 4 1
    (geom2D {| GetNE := 1; Dimension := 2;
               GetElementVertices := fun _ => [0; 1; 2; 3];
               GetVertex := fun _ _ => zero;
               embeddings := fun _ => {| parent := 0; matrix := 0 |};
               ir := rule;
               geom_J := scaled_identity_J one |} 1 2 invJ0)
    0 0 0 1 1 = zero.
Proof.
  intros Hsize. apply opposite_nodes_decouple. intros iq Hiq.
  set (mesh := {| GetNE := 1 |}).
  change (idx4 3 4 1 1 iq 0 0) with (slot 2 1 4 (embeddings mesh 0) iq 1).
  replace 4 with (ir_size (ir mesh)) at 1 by exact Hsize.
  rewrite geom2D_slot.
  - subst mesh. cbn [ir]. rewrite Hsize.
    assert (Hq : iq = 0 \/ iq = 1 \/ iq = 2 \/ iq = 3) by lia.
    destruct Hq as [-> | [-> | [-> | ->]]];
      cbv -[Qcplus Qcmult Qcopp Qcminus Qcdiv Q2Qc ir_get weight];
      ring.
  - split; simpl; [intros; lia | intros e e' ? ? _; lia].
  - simpl. lia.
  - simpl. rewrite Hsize. exact Hiq.
  - lia.
Qed.

(** * Further properties of the kernels and the driver *)

(** ** Bounds *)

(** The offsets into [btab] on the sub-cell (0,1) of an order-2 element, for
    the node pair (1,1), (0,2). *)
Lemma btab_offsets_in_range_witness :
  0 <= (0 - 1 + 1) * 2 + 1 < 4 /\ 0 <= (1 - 1 + 1) * 2 + 0 < 4 /\
  0 <= (0 - 0 + 1) * 2 + 1 < 4 /\ 0 <= (1 - 2 + 1) * 2 + 0 < 4.
Proof.
  apply (btab_offsets_in_range 2 1 1 0 2 0 1 1 0).
  - vm_compute. tauto.
  - lia.
  - lia.
Defined.

(** The debug assertion of the 3D kernel never fires: vertex, edge, face and
    interior dofs add up to (order+1)^3 for every order. *)
Theorem dof_count_assertion_holds (order : Z) : dof_count_asserted order = true.
Proof.
  unfold dof_count_asserted, nvert_dof_per_el, nedge_dof_per_el,
    nface_dof_per_el, nint_dof_per_el, ndof_per_el.
  apply Z.eqb_eq. ring.
Qed.










(** ** What the geometry pass leaves alone *)

Section GeometryFrame.
Context {R : Type} `{Scalar R}.

(** The 2D geometry pass writes the three slots of each (fine cell,
    quadrature point) and nothing else: every other slot of the buffer
    holds what it held before, in any dimension and for any embedding
    table. *)
Theorem geom2D_writes_only_slots (mesh_lor : Mesh R) (order dim : Z)
    (invJ0 : store R) (j : Z) :
  (forall e iq c, 0 <= e < GetNE mesh_lor ->
                  0 <= iq < ir_size (ir mesh_lor) -> 0 <= c < 3 ->
     j <> idx4 ((dim * (dim + 1)) / 2) (ir_size (ir mesh_lor)) (order ^ dim)
               c iq (matrix (embeddings mesh_lor e))
               (parent (embeddings mesh_lor e))) ->
  geom2D mesh_lor order dim invJ0 j = invJ0 j.
Proof.
  intros Hj. unfold geom2D. cbv zeta.
  apply for_store_frame. intros e s He. unfold geom2D_cell. cbv zeta.
  apply for_store_frame. intros iq t Hq. unfold geom2D_point. cbv zeta.
  rewrite !upd_ne; [reflexivity | apply Hj; (assumption || lia) ..].
Qed.

(** The same for the 3D geometry pass and its six slots per point. *)
Theorem geom3D_writes_only_slots (mesh_lor : Mesh R) (order dim : Z)
    (invJ0 : store R) (j : Z) :
  (forall e iq c, 0 <= e < GetNE mesh_lor ->
                  0 <= iq < ir_size (ir mesh_lor) -> 0 <= c < 6 ->
     j <> idx4 ((dim * (dim + 1)) / 2) (ir_size (ir mesh_lor)) (order ^ dim)
               c iq (matrix (embeddings mesh_lor e))
               (parent (embeddings mesh_lor e))) ->
  geom3D mesh_lor order dim invJ0 j = invJ0 j.
Proof.
  intros Hj. unfold geom3D. cbv zeta.
  apply for_store_frame. intros e s He. unfold geom3D_cell. cbv zeta.
  apply for_store_frame. intros iq t Hq. unfold geom3D_point. cbv zeta.
  rewrite !upd_ne; [reflexivity | apply Hj; (assumption || lia) ..].
Qed.

End GeometryFrame.

(** On the 2x2 refined square the slot just past the buffer's 48 values
    keeps its content. *)
Lemma geom2D_writes_only_slots_witness :
  geom2D (refined_square_mesh (R:=Qc)) 2 2 (const_store one) 48 = one.
Proof.
  apply (geom2D_writes_only_slots (R:=Qc) refined_square_mesh 2 2
                                  (const_store one) 48).
  intros e iq c He Hq Hc. simpl in He. unfold ir_size in Hq. simpl in Hq.
  simpl. unfold idx4.
  change (2 * (2 + 1) / 2) with 3. change (ir_size gl_rule2D) with 4.
  change (2 ^ 2) with 4. lia.
Defined.

(** On the sheared cell the slot just past the buffer's 48 values keeps its
    content. *)
Lemma geom3D_writes_only_slots_witness :
  geom3D (sheared_hex_mesh (R:=Qc)) 1 3 (const_store one) 48 = one.
Proof.
  apply (geom3D_writes_only_slots (R:=Qc) sheared_hex_mesh 1 3
                                  (const_store one) 48).
  intros e iq c He Hq Hc. simpl in He. unfold ir_size in Hq. simpl in Hq.
  simpl. unfold idx4.
  change (3 * (3 + 1) / 2) with 6. change (ir_size gl_rule3D) with 8.
  change (1 ^ 3) with 1. lia.
Defined.

(** ** Fine cells that share an embedding *)

Lemma map_seq_from (A : Type) (f : nat -> A) (a b : nat) :
  List.map f (seq a b) = List.map (fun i => f (a + i)%nat) (seq 0 b).
Proof.
  revert a f. induction b as [|b IH]; intros a f; simpl; [reflexivity|].
  rewrite Nat.add_0_r. f_equal.
  rewrite (IH (S a)), (IH 1%nat). apply map_ext. intros i.
  f_equal. lia.
Qed.

Lemma range_split (lo m hi : Z) :
  lo <= m <= hi -> range lo hi = range lo m ++ range m hi.
Proof.
  intros Hm. unfold range.
  replace (Z.to_nat (hi - lo)) with (Z.to_nat (m - lo) + Z.to_nat (hi - m))%nat
    by lia.
  rewrite seq_app, map_app. f_equal.
  rewrite map_seq_from. apply map_ext. intros i. lia.
Qed.

Lemma range_first (lo hi : Z) : lo < hi -> range lo hi = lo :: range (lo + 1) hi.
Proof.
  intros Hlt. rewrite (range_split lo (lo + 1) hi) by lia.
  unfold range at 1. replace (Z.to_nat (lo + 1 - lo)) with 1%nat by lia.
  simpl. f_equal. lia.
Qed.

(** A slot that iteration [i0] sets to [v] and no later iteration writes
    holds [v] after the loop, whatever earlier iterations did to it. *)
Lemma for_store_last {R : Type} (lo hi : Z) (body : Z -> store R -> store R)
    (i0 j : Z) (v : R) :
  lo <= i0 < hi ->
  (forall s, body i0 s j = v) ->
  (forall i s, i0 < i < hi -> body i s j = s j) ->
  forall s, for_ lo hi body s j = v.
Proof.
  intros Hi0 Hset Hframe s. unfold for_.
  rewrite (range_split lo i0 hi) by lia.
  rewrite (range_first i0 hi) by lia.
  rewrite fold_left_app. simpl.
  change (fold_left (fun s1 i => body i s1) (range (i0 + 1) hi)
                    (body i0 (fold_left (fun s1 i => body i s1) (range lo i0) s)))
    with (for_ (i0 + 1) hi body
               (body i0 (fold_left (fun s1 i => body i s1) (range lo i0) s))).
  rewrite for_store_frame; [apply Hset|].
  intros i t Hi. apply Hframe. lia.
Qed.

Section LastWriter.
Context {R : Type} `{Scalar R}.

(** Where several fine cells carry the same embedding, the last of them in
    mesh order determines the stored metric: its three values are what the
    slots hold after the 2D geometry pass, and the earlier cells' values
    are overwritten. The sub-cell indices only need to be in range. *)
Theorem geom2D_last_cell_wins (mesh_lor : Mesh R) (order : Z)
    (invJ0 : store R) (e iq : Z) :
  (forall e', 0 <= e' < GetNE mesh_lor ->
              0 <= matrix (embeddings mesh_lor e') < order ^ 2) ->
  (forall e', e < e' < GetNE mesh_lor ->
              embeddings mesh_lor e' <> embeddings mesh_lor e) ->
  0 <= e < GetNE mesh_lor ->
  0 <= iq < ir_size (ir mesh_lor) ->
  let nq := ir_size (ir mesh_lor) in
  List.map (fun c => geom2D mesh_lor order 2 invJ0
                            (slot 2 order nq (embeddings mesh_lor e) iq c))
           [0; 1; 2]
  = metric2D_spec (J2D mesh_lor nq 2 iq 0 0 e) (J2D mesh_lor nq 2 iq 1 0 e)
                  (J2D mesh_lor nq 2 iq 0 1 e) (J2D mesh_lor nq 2 iq 1 1 e)
                  (weight (ir_get (ir mesh_lor) iq)).
Proof.
  intros Hrange Hlast He Hq. cbv zeta.
  assert (Hslot : forall c, 0 <= c < 3 ->
            geom2D mesh_lor order 2 invJ0
                   (slot 2 order (ir_size (ir mesh_lor))
                         (embeddings mesh_lor e) iq c)
            = nth (Z.to_nat c)
                  (metric2D_spec
                     (J2D mesh_lor (ir_size (ir mesh_lor)) 2 iq 0 0 e)
                     (J2D mesh_lor (ir_size (ir mesh_lor)) 2 iq 1 0 e)
                     (J2D mesh_lor (ir_size (ir mesh_lor)) 2 iq 0 1 e)
                     (J2D mesh_lor (ir_size (ir mesh_lor)) 2 iq 1 1 e)
                     (weight (ir_get (ir mesh_lor) iq))) zero).
  { intros c Hc. unfold geom2D, geom2D_cell, slot. cbv zeta.
    change (2 * (2 + 1) / 2) with 3.
    apply for_store_last with (i0 := e); [exact He| |].
    - intros s. apply for_store_at with (i0 := iq); [exact Hq| |].
      + intros t. now apply geom2D_point_own.
      + intros iq' t Hq' Hne. apply geom2D_point_other.
        intros c' Hc' Heq. unfold idx4 in Heq. nia.
    - intros e' s He'. apply for_store_frame. intros iq' t Hq'.
      apply geom2D_point_other. intros c' Hc' Heq.
      apply idx4_inj in Heq as (_ & _ & Hm & Hp);
        [|lia|lia|lia|lia|apply Hrange; lia|apply Hrange; lia].
      apply (Hlast e' He').
      destruct (embeddings mesh_lor e'), (embeddings mesh_lor e).
      simpl in *. congruence. }
  simpl List.map. rewrite !Hslot by lia. reflexivity.
Qed.

End LastWriter.

(** Two cells at the same position: the slots hold the second cell's metric. *)
Lemma geom2D_last_cell_wins_witness :
  List.map (fun c => geom2D (overlapping_cells_mesh (R:=Qc)) 1 2
                            (const_store zero)
                            (slot 2 1 4 {| parent := 0; matrix := 0 |} 0 c))
           [0; 1; 2]
  = metric2D_spec half zero zero half quarter.
Proof.
  apply (geom2D_last_cell_wins (R:=Qc) overlapping_cells_mesh 1
                               (const_store zero) 1 0).
  - intros e' He'. simpl. lia.
  - intros e' He'. simpl in He'. lia.
  - simpl. lia.
  - vm_compute. split; discriminate || reflexivity.
Defined.

(** ** The driver's paths *)

Section DriverPaths.
Context {R : Type} `{Scalar R}.

(** On a 2D mesh with an order in 1..16 the driver returns, and the matrix
    it hands over is the 2D kernel's for that order, run on an empty
    matrix, with the essential dofs then eliminated in the order given. Its
    effects are, in order: the allocation, the one kernel call, one
    elimination per essential dof, finalize, reset. Whatever the handle
    owned before is replaced. *)
Theorem driver_assembles_2D (form_lor : BilinearForm R)
    (fes_ho : FiniteElementSpace R) (ess_dofs : list Z)
    (invJ0 : store R) (lm0 : list R) (w : world R) :
  UsesTensorBasis fes_ho = true ->
  Dimension (GetMesh fes_ho) = 2 ->
  1 <= GetMaxElementOrder fes_ho <= 16 ->
  AssembleBatchedLOR form_lor fes_ho ess_dofs invJ0 lm0 w
  = Returned tt
      {| handle :=
           Some (eliminate_all ess_dofs
                   (Assemble2DBatchedLOR (GetMaxElementOrder fes_ho)
                      (GetMesh (FESpace form_lor)) (GetMesh fes_ho) fes_ho
                      invJ0 ∅));
         trace := trace w
                  ++ [EvNewMatrix (GetTrueVSize fes_ho) (GetTrueVSize fes_ho);
                      EvKernel 2 (GetMaxElementOrder fes_ho)]
                  ++ List.map EvEliminate ess_dofs
                  ++ [EvFinalize; EvReset] |}.
Proof.
  intros Htensor Hdim Horder.
  unfold AssembleBatchedLOR, bind, MFEM_VERIFY, new_SparseMatrix, bind, emit, ret.
  rewrite Htensor, Hdim. simpl.
  rewrite switch2D_inside by exact Horder.
  unfold call2D, bind, emit, ret. simpl.
  rewrite eliminate_loop_run. unfold Reset, Finalize. simpl.
  f_equal. f_equal. now rewrite <- !app_assoc.
Qed.

(** In a dimension other than 2 and 3 the driver calls no kernel, whatever
    the order, and raises no error: the caller gets an empty matrix. *)
Theorem unsupported_dimension_is_silent (form_lor : BilinearForm R)
    (fes_ho : FiniteElementSpace R) (ess_dofs : list Z)
    (invJ0 : store R) (lm0 : list R) (w : world R) :
  UsesTensorBasis fes_ho = true ->
  Dimension (GetMesh fes_ho) <> 2 ->
  Dimension (GetMesh fes_ho) <> 3 ->
  AssembleBatchedLOR form_lor fes_ho ess_dofs invJ0 lm0 w
  = Returned tt
      {| handle := Some ∅;
         trace := trace w
                  ++ [EvNewMatrix (GetTrueVSize fes_ho) (GetTrueVSize fes_ho)]
                  ++ List.map EvEliminate ess_dofs
                  ++ [EvFinalize; EvReset] |}.
Proof.
  intros Htensor H2 H3.
  unfold AssembleBatchedLOR, bind, MFEM_VERIFY, new_SparseMatrix, bind, emit, ret.
  rewrite Htensor. simpl.
  destruct (Z.eqb_spec (Dimension (GetMesh fes_ho)) 2) as [Heq|_];
    [contradiction|].
  destruct (Z.eqb_spec (Dimension (GetMesh fes_ho)) 3) as [Heq|_];
    [contradiction|].
  rewrite eliminate_loop_run. unfold Reset, Finalize. simpl.
  rewrite eliminate_all_empty. f_equal. f_equal.
  now rewrite <- !app_assoc.
Qed.

End DriverPaths.

(** The unit square with essential dof 1, from a handle that owned a matrix. *)
Lemma driver_assembles_2D_witness :
  AssembleBatchedLOR (R:=Qc) unit_square_form unit_square_fes [1]
                     (const_store zero) []
                     {| handle := Some {[ (7, 7) := one ]}; trace := [] |}
  = Returned tt
      {| handle :=
           Some (eliminate_all [1]
                   (Assemble2DBatchedLOR 1 unit_square_mesh unit_square_mesh
                                         unit_square_fes (const_store zero) ∅));
         trace := [EvNewMatrix 4 4; EvKernel 2 1; EvEliminate 1;
                   EvFinalize; EvReset] |}.
Proof.
  apply (driver_assembles_2D (R:=Qc) unit_square_form unit_square_fes [1]
           (const_store zero) []
           {| handle := Some {[ (7, 7) := one ]}; trace := [] |}).
  - reflexivity.
  - reflexivity.
  - simpl. lia.
Defined.

(** A one-dimensional space of order 3, with essential dofs 0 and 1. *)
Lemma unsupported_dimension_is_silent_witness :
  AssembleBatchedLOR (R:=Qc) segment_form segment_fes [0; 1]
                     (const_store zero) [] fresh_world
  = Returned tt
      {| handle := Some ∅;
         trace := [EvNewMatrix 4 4; EvEliminate 0; EvEliminate 1;
                   EvFinalize; EvReset] |}.
Proof.
  apply (unsupported_dimension_is_silent (R:=Qc) segment_form segment_fes
           [0; 1] (const_store zero) [] fresh_world).
  - reflexivity.
  - simpl. lia.
  - simpl. lia.
Defined.

(** ** The geometry of a cell, over the rationals *)

Ltac qc_field := cbv [add sub mul div neg one zero Qc_Scalar]; field.

(** The Jacobian the 3D kernel writes out term by term is the gradient of
    the trilinear map of the eight vertices given in the comment of lines
    250-251: that map is affine along each reference axis, with the
    matching column of the Jacobian as its slope, for each of the three
    coordinates [c]. *)
Theorem jacobian3D_differentiates_trilinear (v : Z -> Z -> Qc) (c : Z)
    (x x' y y' z z' : Qc) :
  (trilinear v c x' y z - trilinear v c x y z)%R = ((x' - x) * Jcol1 v c y z)%R /\
  (trilinear v c x y' z - trilinear v c x y z)%R = ((y' - y) * Jcol2 v c x z)%R /\
  (trilinear v c x y z' - trilinear v c x y z)%R = ((z' - z) * Jcol3 v c x y)%R.
Proof.
  unfold trilinear, Jcol1, Jcol2, Jcol3. repeat split; qc_ring.
Qed.

(** [detJ] is the determinant and [A11..A33] the adjugate of the Jacobian:
    the product of the two, in either order, is detJ times the identity. *)
Theorem adjugate_and_determinant (J : Mat3 (R:=Qc)) :
  detJ3 J = det3_leibniz J /\
  mat3_mul (adj3 J) J = mat3_scalar (detJ3 J) /\
  mat3_mul J (adj3 J) = mat3_scalar (detJ3 J).
Proof.
  unfold detJ3, det3_leibniz, mat3_mul, mat3_scalar, adj3. simpl.
  split; [qc_ring|]. split; f_equal; qc_ring.
Qed.

(** For a parallelepiped, with origin [o] and edge vectors [a], [b], [c], the
    Jacobian is the matrix of the edge vectors at every point of the cell:
    the vertex order the formulas assume is the one of the comment. *)
Theorem jacobian3D_of_parallelepiped (o a b c : Z -> Qc) (x y z : Qc) :
  jacobian3D (affine_hex o a b c) x y z
  = {| m11 := a 0; m12 := b 0; m13 := c 0;
       m21 := a 1; m22 := b 1; m23 := c 1;
       m31 := a 2; m32 := b 2; m33 := c 2 |}.
Proof.
  unfold jacobian3D, Jcol1, Jcol2, Jcol3, affine_hex, hex_corner.
  cbv [nth Z.to_nat Pos.to_nat Pos.iter_op Nat.add].
  f_equal; qc_ring.
Qed.

(** On a cell that is not degenerate, the three values the 2D geometry pass
    stores are the entries of weight * detJ * (J^T J)^-1: multiplied with
    J^T J they give weight * detJ times the identity. *)
Theorem metric2D_inverts_JtJ (mesh_lor : Mesh Qc) (order : Z)
    (invJ0 : store Qc) (e iq : Z) :
  embeddings_wf mesh_lor (order ^ 2) ->
  0 <= e < GetNE mesh_lor ->
  0 <= iq < ir_size (ir mesh_lor) ->
  let nq := ir_size (ir mesh_lor) in
  let J11 := J2D mesh_lor nq 2 iq 0 0 e in
  let J21 := J2D mesh_lor nq 2 iq 1 0 e in
  let J12 := J2D mesh_lor nq 2 iq 0 1 e in
  let J22 := J2D mesh_lor nq 2 iq 1 1 e in
  let w := weight (ir_get (ir mesh_lor) iq) in
  let M c := geom2D mesh_lor order 2 invJ0
                    (slot 2 order nq (embeddings mesh_lor e) iq c) in
  (J11 * J22 - J21 * J12)%R <> zero ->
  (M 0 * (J11 * J11 + J21 * J21) + M 1 * (J12 * J11 + J22 * J21))%R
  = (w * (J11 * J22 - J21 * J12))%R /\
  (M 0 * (J11 * J12 + J21 * J22) + M 1 * (J12 * J12 + J22 * J22))%R = zero /\
  (M 1 * (J11 * J11 + J21 * J21) + M 2 * (J12 * J11 + J22 * J21))%R = zero /\
  (M 1 * (J11 * J12 + J21 * J22) + M 2 * (J12 * J12 + J22 * J22))%R
  = (w * (J11 * J22 - J21 * J12))%R.
Proof.
  intros Hwf He Hq. cbv beta zeta. intros Hdet.
  rewrite (geom2D_slot mesh_lor order invJ0 e iq 0),
          (geom2D_slot mesh_lor order invJ0 e iq 1),
          (geom2D_slot mesh_lor order invJ0 e iq 2) by (assumption || lia).
  unfold metric2D_spec. cbv [nth Z.to_nat Pos.to_nat Pos.iter_op Nat.add].
  revert Hdet.
  generalize (J2D mesh_lor (ir_size (ir mesh_lor)) 2 iq 0 0 e) as J11.
  generalize (J2D mesh_lor (ir_size (ir mesh_lor)) 2 iq 1 0 e) as J21.
  generalize (J2D mesh_lor (ir_size (ir mesh_lor)) 2 iq 0 1 e) as J12.
  generalize (J2D mesh_lor (ir_size (ir mesh_lor)) 2 iq 1 1 e) as J22.
  generalize (weight (ir_get (ir mesh_lor) iq)) as w.
  cbv [add sub mul div neg one zero Qc_Scalar].
  intros w J22 J12 J21 J11 Hdet.
  repeat split; field; exact Hdet.
Qed.

(** On a cell that is not degenerate, the six values the 3D geometry pass
    stores are the entries of weight * detJ * (J^T J)^-1, the metric of the
    diffusion form: as a symmetric matrix, multiplied with J^T J, they give
    weight * detJ times the identity. *)
Theorem metric3D_inverts_JtJ (mesh_lor : Mesh Qc) (order : Z)
    (invJ0 : store Qc) (e iq : Z) :
  embeddings_wf mesh_lor (order ^ 3) ->
  0 <= e < GetNE mesh_lor ->
  0 <= iq < ir_size (ir mesh_lor) ->
  let nq := ir_size (ir mesh_lor) in
  let p := ir_get (ir mesh_lor) iq in
  let J := jacobian3D (cell_vertices mesh_lor e) (ip_x p) (ip_y p) (ip_z p) in
  let M := sym_mat3
             (List.map (fun c => geom3D mesh_lor order 3 invJ0
                                        (slot 3 order nq (embeddings mesh_lor e) iq c))
                       [0; 1; 2; 3; 4; 5]) in
  detJ3 J <> zero ->
  mat3_mul M (mat3_mul (mat3_transpose J) J)
  = mat3_scalar (weight p * detJ3 J)%R.
Proof.
  intros Hwf He Hq. cbv zeta. intros Hdet. simpl List.map.
  rewrite !geom3D_slot by (assumption || lia).
  unfold point_metric3D. cbv zeta.
  revert Hdet.
  generalize (jacobian3D (cell_vertices mesh_lor e)
                (ip_x (ir_get (ir mesh_lor) iq)) (ip_y (ir_get (ir mesh_lor) iq))
                (ip_z (ir_get (ir mesh_lor) iq))) as J.
  generalize (weight (ir_get (ir mesh_lor) iq)) as w.
  intros w [j11 j12 j13 j21 j22 j23 j31 j32 j33].
  unfold sym_mat3, metric3D, mat3_mul, mat3_transpose, mat3_scalar, adj3, detJ3.
  cbv [nth Z.to_nat Pos.to_nat Pos.iter_op Nat.add m11 m12 m13 m21 m22 m23 m31 m32 m33].
  cbv [add sub mul div neg one zero Qc_Scalar].
  intros Hdet. f_equal; field; exact Hdet.
Qed.

Ltac qc_nonzero :=
  let Heq := fresh "Heq" in
  intros Heq; apply (f_equal this) in Heq; vm_compute in Heq; discriminate.

(** The last cell of the 2x2 refinement, whose Jacobian is half the identity. *)
Lemma metric2D_inverts_JtJ_witness :
  let M c := geom2D (refined_square_mesh (R:=Qc)) 2 2 (const_store zero)
                    (slot 2 2 4 {| parent := 0; matrix := 3 |} 1 c) in
  (M 0 * (half * half + zero * zero) + M 1 * (zero * half + half * zero))%R
  = (quarter * (half * half - zero * zero))%R /\
  (M 0 * (half * zero + zero * half) + M 1 * (zero * zero + half * half))%R = zero /\
  (M 1 * (half * half + zero * zero) + M 2 * (zero * half + half * zero))%R = zero /\
  (M 1 * (half * zero + zero * half) + M 2 * (zero * zero + half * half))%R
  = (quarter * (half * half - zero * zero))%R.
Proof.
  apply (metric2D_inverts_JtJ (refined_square_mesh (R:=Qc)) 2
                              (const_store zero) 3 1).
  - apply refined_square_wf.
  - simpl. lia.
  - vm_compute. split; discriminate || reflexivity.
  - qc_nonzero.
Defined.

(** The sheared cell at its first corner. *)
Lemma metric3D_inverts_JtJ_witness :
  let J := jacobian3D (R:=Qc) (cell_vertices sheared_hex_mesh 0) zero zero zero in
  let M := sym_mat3
             (List.map (fun c => geom3D (R:=Qc) sheared_hex_mesh 1 3
                                        (const_store zero)
                                        (slot 3 1 8 {| parent := 0; matrix := 0 |} 0 c))
                       [0; 1; 2; 3; 4; 5]) in
  mat3_mul M (mat3_mul (mat3_transpose J) J) = mat3_scalar (eighth * detJ3 J)%R.
Proof.
  apply (metric3D_inverts_JtJ (sheared_hex_mesh (R:=Qc)) 1 (const_store zero) 0 0).
  - apply sheared_hex_wf.
  - simpl. lia.
  - vm_compute. split; discriminate || reflexivity.
  - qc_nonzero.
Defined.

(** ** The 2D kernel reads only what its geometry pass wrote *)

Section NoUninitialisedReads.
Context {R : Type} `{Scalar R}.

(** The value for a node pair depends on the metric buffer only through the
    slots of the sub-cells summed over. *)
Lemma pair_val_reads (order ncomp nq nk : Z) (s s' : store R)
    (iel_ho ix iy jx jy : Z) :
  (forall kx ky iq c,
     In (kx, ky) (sub_cells order ix iy jx jy) -> 0 <= iq < 4 -> 0 <= c < 3 ->
     s (idx4 ncomp nq nk c iq (kx + ky * order) iel_ho)
     = s' (idx4 ncomp nq nk c iq (kx + ky * order) iel_ho)) ->
  pair_val order ncomp nq nk s iel_ho ix iy jx jy
  = pair_val order ncomp nq nk s' iel_ho ix iy jx jy.
Proof.
  intros Hagree. unfold pair_val. cbv zeta.
  apply for_ext. intros ky v Hky.
  apply for_ext. intros kx v' Hkx.
  assert (Hin : In (kx, ky) (sub_cells order ix iy jx jy))
    by (apply In_sub_cells; tauto).
  unfold cell_term.
  apply for_ext. intros iqy v'' Hqy.
  apply for_ext. intros iqx v''' Hqx.
  unfold quad_term. cbv zeta.
  now rewrite !(Hagree kx ky) by (assumption || lia).
Qed.

(** When the fine cells tile the high-order elements (each sub-cell of each
    element is the position of exactly one fine cell) and the rule has its
    four points, the matrix the 2D kernel produces does not depend on what
    the buffer [invJ_data] held when it was allocated: every slot the
    assembly loops read has been written by the geometry pass. *)
Theorem assemble2D_ignores_allocation (order : Z) (mesh_lor mesh_ho : Mesh R)
    (fes_ho : FiniteElementSpace R) (invJ0 invJ0' : store R)
    (A_mat : gmap (Z * Z) R) :
  Dimension mesh_ho = 2 ->
  ir_size (ir mesh_lor) = 4 ->
  embeddings_wf mesh_lor (order ^ 2) ->
  (forall iel k, 0 <= iel < GetNE mesh_ho -> 0 <= k < order ^ 2 ->
     exists e, 0 <= e < GetNE mesh_lor /\
               embeddings mesh_lor e = {| parent := iel; matrix := k |}) ->
  Assemble2DBatchedLOR order mesh_lor mesh_ho fes_ho invJ0 A_mat
  = Assemble2DBatchedLOR order mesh_lor mesh_ho fes_ho invJ0' A_mat.
Proof.
  intros Hdim Hnq Hwf Hcov. unfold Assemble2DBatchedLOR. cbv zeta.
  rewrite Hdim, Hnq. change (2 * (2 + 1) / 2) with 3.
  apply for_ext. intros iel A Hiel. unfold element2D. cbv zeta.
  apply for_ext. intros iy A1 _.
  apply for_ext. intros ix A2 _.
  apply for_ext. intros xshift A3 _. unfold xshift_step. cbv zeta.
  destruct ((ix + xshift <? 0) || (ix + xshift >=? order + 1)); [reflexivity|].
  apply for_ext. intros yshift A4 _. unfold yshift_step. cbv zeta.
  destruct ((iy + yshift <? 0) || (iy + yshift >=? order + 1)); [reflexivity|].
  f_equal. apply pair_val_reads. intros kx ky iq c Hin Hq Hc.
  apply In_sub_cells in Hin. rewrite !kx_range_iff in Hin.
  assert (Hk : 0 <= kx + ky * order < order ^ 2) by (rewrite Z.pow_2_r; nia).
  destruct (Hcov iel (kx + ky * order) Hiel Hk) as (e & He & Hemb).
  pose proof (geom2D_slot mesh_lor order invJ0 e iq c Hwf He) as Hs.
  pose proof (geom2D_slot mesh_lor order invJ0' e iq c Hwf He) as Hs'.
  unfold slot in Hs, Hs'. rewrite Hemb, Hnq in Hs, Hs'. simpl in Hs, Hs'.
  change (2 * (2 + 1) / 2) with 3 in Hs, Hs'.
  rewrite Hs, Hs' by lia. reflexivity.
Qed.

End NoUninitialisedReads.

(** The order-2 element on the 2x2 refined unit square, from a buffer of
    zeros and from a buffer of ones. *)
Lemma assemble2D_ignores_allocation_witness :
  Assemble2DBatchedLOR (R:=Qc) 2 refined_square_mesh unit_square_mesh
                       refined_square_fes (const_store zero) ∅
  = Assemble2DBatchedLOR (R:=Qc) 2 refined_square_mesh unit_square_mesh
                         refined_square_fes (const_store one) ∅.
Proof.
  apply (assemble2D_ignores_allocation (R:=Qc)).
  - reflexivity.
  - reflexivity.
  - apply refined_square_wf.
  - intros iel k Hiel Hk. simpl in Hiel. exists k. split.
    + simpl. change (2 ^ 2) with 4 in Hk. lia.
    + simpl. f_equal. lia.
Defined.

(** ** What the 2D kernel adds to the global matrix *)

Lemma In_stencil_pairs (order ix iy jx jy : Z) :
  In ((ix, iy), (jx, jy)) (stencil_pairs order) <->
  (0 <= ix <= order /\ 0 <= iy <= order) /\
  (0 <= jx <= order /\ 0 <= jy <= order) /\
  (-1 <= jx - ix <= 1 /\ -1 <= jy - iy <= 1).
Proof.
  unfold stencil_pairs. rewrite In_bind. split.
  - intros (y & Hy & Hin). apply In_bind in Hin as (x & Hx & Hin).
    apply In_bind in Hin as (xs & Hxs & Hin).
    apply In_range in Hy, Hx, Hxs.
    destruct ((x + xs <? 0) || (x + xs >=? order + 1)) eqn:Hbx; [destruct Hin|].
    apply In_bind in Hin as (ys & Hys & Hin). apply In_range in Hys.
    destruct ((y + ys <? 0) || (y + ys >=? order + 1)) eqn:Hby; [destruct Hin|].
    destruct Hin as [Heq|[]]. injection Heq as -> -> <- <-.
    apply orb_false_iff in Hbx as [Hx1 Hx2], Hby as [Hy1 Hy2]. lia.
  - intros (Hi & Hj & Hd). exists iy. split; [apply In_range; lia|].
    apply In_bind. exists ix. split; [apply In_range; lia|].
    apply In_bind. exists (jx - ix). split; [apply In_range; lia|].
    replace (ix + (jx - ix)) with jx by lia.
    replace ((jx <? 0) || (jx >=? order + 1)) with false
      by (symmetry; apply orb_false_iff; lia).
    apply In_bind. exists (jy - iy). split; [apply In_range; lia|].
    replace (iy + (jy - iy)) with jy by lia.
    replace ((jy <? 0) || (jy >=? order + 1)) with false
      by (symmetry; apply orb_false_iff; lia).
    now left.
Qed.

Lemma NoDup_bind_gen {A B : Type} (g : A -> list B) (l : list A) :
  List.NoDup l ->
  (forall x, In x l -> List.NoDup (g x)) ->
  (forall x x' y, In x l -> In x' l -> In y (g x) -> In y (g x') -> x = x') ->
  List.NoDup (l ≫= g).
Proof.
  intros Hl. induction Hl as [|x l Hx Hl IH]; intros Hg Hdisj; simpl;
    [constructor|].
  apply List.NoDup_app.
  - apply Hg. now left.
  - apply IH.
    + intros x' Hx'. apply Hg. now right.
    + intros x1 x2 y H1 H2. apply Hdisj; now right.
  - intros y Hy Hy'. apply In_bind in Hy' as (x' & Hx' & Hy').
    apply Hx. rewrite (Hdisj x x' y); [exact Hx'|now left|now right|exact Hy|exact Hy'].
Qed.

Ltac unpack_stencil H :=
  repeat first
    [ apply In_bind in H as (? & _ & H)
    | match type of H with
      | In _ (if ?b then _ else _) => destruct b; [destruct H|]
      end
    | destruct H as [H|[]] ].

Lemma NoDup_stencil_pairs (order : Z) : List.NoDup (stencil_pairs order).
Proof.
  unfold stencil_pairs.
  apply NoDup_bind_gen; [apply NoDup_range| |].
  - intros iy _. apply NoDup_bind_gen; [apply NoDup_range| |].
    + intros ix _. apply NoDup_bind_gen; [apply NoDup_range| |].
      * intros xs _.
        destruct ((ix + xs <? 0) || (ix + xs >=? order + 1)); [constructor|].
        apply NoDup_bind_gen; [apply NoDup_range| |].
        -- intros ys _.
           destruct ((iy + ys <? 0) || (iy + ys >=? order + 1));
             [constructor|].
           constructor; [intros []|constructor].
        -- intros ys ys' p _ _ H1 H2. unpack_stencil H1. unpack_stencil H2.
           subst p. injection H2. lia.
      * intros xs xs' p _ _ H1 H2. unpack_stencil H1. unpack_stencil H2.
        subst p. injection H2. lia.
    + intros ix ix' p _ _ H1 H2. unpack_stencil H1. unpack_stencil H2.
      subst p. injection H2. lia.
  - intros iy iy' p _ _ H1 H2. unpack_stencil H1. unpack_stencil H2.
    subst p. injection H2. lia.
Qed.

Section Scatter2D.
Context {R : Type} `{Scalar R}.

Lemma lookup_Add_other (i j r c : Z) (v : R) (m : gmap (Z * Z) R) :
  (i, j) <> (r, c) -> Add i j v m !! (r, c) = m !! (r, c).
Proof. intros Hne. unfold Add. now rewrite lookup_insert_ne. Qed.

Lemma entry_Add_same (i j : Z) (v : R) (m : gmap (Z * Z) R) :
  entry (Add i j v m) i j = (entry m i j + v)%R.
Proof. unfold Add, entry at 1. now rewrite lookup_insert_eq. Qed.

(** A sequence of additions, none of them at (r,c), leaves (r,c) as it is:
    no entry is created there and none changed. *)
Lemma lookup_fold_Add_other {X : Type} (key : X -> Z * Z) (val : X -> R)
    (l : list X) (r c : Z) (m : gmap (Z * Z) R) :
  (forall x, In x l -> key x <> (r, c)) ->
  fold_left (fun A x => Add (key x).1 (key x).2 (val x) A) l m !! (r, c)
  = m !! (r, c).
Proof.
  revert m. induction l as [|x l IH]; intros m Hne; simpl; [reflexivity|].
  rewrite IH by (intros x' Hx'; apply Hne; now right).
  apply lookup_Add_other. specialize (Hne x (or_introl eq_refl)).
  now destruct (key x).
Qed.

(** A sequence of additions in which exactly [x0] goes to its position adds
    the value of [x0] there, once. *)
Lemma entry_fold_Add_once {X : Type} (key : X -> Z * Z) (val : X -> R)
    (l : list X) (x0 : X) (m : gmap (Z * Z) R) :
  List.NoDup l -> In x0 l ->
  (forall x, In x l -> key x = key x0 -> x = x0) ->
  entry (fold_left (fun A x => Add (key x).1 (key x).2 (val x) A) l m)
        (key x0).1 (key x0).2
  = (entry m (key x0).1 (key x0).2 + val x0)%R.
Proof.
  intros Hnd Hin Huniq.
  apply in_split in Hin as (l1 & l2 & ->).
  apply NoDup_remove_2 in Hnd.
  rewrite fold_left_app. simpl.
  assert (Hother : forall l' m',
            (forall x, In x l' -> In x (l1 ++ l2)) ->
            entry (fold_left (fun A x => Add (key x).1 (key x).2 (val x) A) l' m')
                  (key x0).1 (key x0).2
            = entry m' (key x0).1 (key x0).2).
  { intros l' m' Hsub. unfold entry. f_equal.
    apply lookup_fold_Add_other. intros x Hx Heq.
    assert (Hkey : key x = key x0) by (destruct (key x0); exact Heq).
    apply Hnd. rewrite <- (Huniq x); [now apply Hsub| |exact Hkey].
    apply in_or_app. apply Hsub, in_app_or in Hx as [Hx|Hx];
      [now left|right; now right]. }
  rewrite Hother by (intros x Hx; apply in_or_app; now right).
  rewrite entry_Add_same. f_equal.
  apply Hother. intros x Hx. apply in_or_app. now left.
Qed.

(** The loops over one element are the additions for [stencil_pairs], in
    order. *)
Lemma element2D_as_fold (order ncomp nq nk : Z) (invJ : store R)
    (fes_ho : FiniteElementSpace R) (iel_ho : Z) (A_mat : gmap (Z * Z) R) :
  element2D order ncomp nq nk invJ fes_ho (GetLexicographicOrdering fes_ho)
            iel_ho A_mat
  = fold_left
      (fun A (ij : (Z * Z) * (Z * Z)) =>
         Add (node_dof fes_ho order iel_ho ij.1.1 ij.1.2,
              node_dof fes_ho order iel_ho ij.2.1 ij.2.2).1
             (node_dof fes_ho order iel_ho ij.1.1 ij.1.2,
              node_dof fes_ho order iel_ho ij.2.1 ij.2.2).2
             (pair_val order ncomp nq nk invJ iel_ho
                       ij.1.1 ij.1.2 ij.2.1 ij.2.2) A)
      (stencil_pairs order) A_mat.
Proof.
  unfold element2D, stencil_pairs, for_. cbv zeta.
  rewrite fold_left_bind. apply fold_left_pointwise. intros A1 iy.
  rewrite fold_left_bind. apply fold_left_pointwise. intros A2 ix.
  rewrite fold_left_bind. apply fold_left_pointwise. intros A3 xs.
  unfold xshift_step. cbv zeta.
  destruct ((ix + xs <? 0) || (ix + xs >=? order + 1)); [reflexivity|].
  unfold for_. rewrite fold_left_bind. apply fold_left_pointwise. intros A4 ys.
  unfold yshift_step. cbv zeta.
  destruct ((iy + ys <? 0) || (iy + ys >=? order + 1)); reflexivity.
Qed.

End Scatter2D.

Section Assembled2D.
Context {R : Type} `{Scalar R}.

(** The tensor nodes of an element carry distinct global dofs. *)
Let distinct_dofs (fes_ho : FiniteElementSpace R) (order iel_ho : Z) : Prop :=
  forall ix iy jx jy,
    0 <= ix <= order -> 0 <= iy <= order ->
    0 <= jx <= order -> 0 <= jy <= order ->
    node_dof fes_ho order iel_ho ix iy = node_dof fes_ho order iel_ho jx jy ->
    ix = jx /\ iy = jy.

Let key (fes_ho : FiniteElementSpace R) (order iel_ho : Z)
    (ij : (Z * Z) * (Z * Z)) : Z * Z :=
  (node_dof fes_ho order iel_ho ij.1.1 ij.1.2,
   node_dof fes_ho order iel_ho ij.2.1 ij.2.2).

Lemma key_found_or_not {X : Type} (k : X -> Z * Z) (l : list X) (rc : Z * Z) :
  (exists x, In x l /\ k x = rc) \/ (forall x, In x l -> k x <> rc).
Proof.
  induction l as [|x l [(x' & Hx' & Hk)|Hno]].
  - right. intros x [].
  - left. exists x'. split; [now right|exact Hk].
  - destruct (decide (k x = rc)) as [Heq|Hne].
    + left. exists x. split; [now left|exact Heq].
    + right. intros x' [<-|Hx']; [exact Hne|now apply Hno].
Qed.

Lemma element2D_lookup_other (order ncomp nq nk : Z) (invJ : store R)
    (fes_ho : FiniteElementSpace R) (iel_ho r c : Z) (A_mat : gmap (Z * Z) R) :
  (forall ij, In ij (stencil_pairs order) -> key fes_ho order iel_ho ij <> (r, c)) ->
  element2D order ncomp nq nk invJ fes_ho (GetLexicographicOrdering fes_ho)
            iel_ho A_mat !! (r, c)
  = A_mat !! (r, c).
Proof.
  intros Hno. rewrite element2D_as_fold.
  apply (lookup_fold_Add_other (key fes_ho order iel_ho)
           (fun ij => pair_val order ncomp nq nk invJ iel_ho
                               ij.1.1 ij.1.2 ij.2.1 ij.2.2)).
  exact Hno.
Qed.

Lemma element2D_entry_pair (order ncomp nq nk : Z) (invJ : store R)
    (fes_ho : FiniteElementSpace R) (iel_ho : Z) (A_mat : gmap (Z * Z) R)
    (ix iy jx jy : Z) :
  distinct_dofs fes_ho order iel_ho ->
  In ((ix, iy), (jx, jy)) (stencil_pairs order) ->
  entry (element2D order ncomp nq nk invJ fes_ho
                   (GetLexicographicOrdering fes_ho) iel_ho A_mat)
        (node_dof fes_ho order iel_ho ix iy)
        (node_dof fes_ho order iel_ho jx jy)
  = (entry A_mat (node_dof fes_ho order iel_ho ix iy)
                 (node_dof fes_ho order iel_ho jx jy)
     + pair_val order ncomp nq nk invJ iel_ho ix iy jx jy)%R.
Proof.
  intros Hinj Hin. rewrite element2D_as_fold.
  apply (entry_fold_Add_once (key fes_ho order iel_ho)
           (fun ij => pair_val order ncomp nq nk invJ iel_ho
                               ij.1.1 ij.1.2 ij.2.1 ij.2.2)
           (stencil_pairs order) ((ix, iy), (jx, jy)) A_mat);
    [apply NoDup_stencil_pairs|exact Hin|].
  intros [[ix' iy'] [jx' jy']] Hin' Hkey. unfold key in Hkey. simpl in Hkey.
  injection Hkey as Hi Hj.
  apply In_stencil_pairs in Hin, Hin'.
  apply Hinj in Hi as [-> ->]; [|lia..].
  apply Hinj in Hj as [-> ->]; [|lia..].
  reflexivity.
Qed.

(** The 2D kernel changes the global matrix only at positions (dof of node
    i, dof of node j) for two nodes i, j of one element that are equal or
    neighbours (at most one step apart along each axis): at every other
    position it neither creates nor changes an entry. *)
Theorem assemble2D_stays_in_stencil (order : Z) (mesh_lor mesh_ho : Mesh R)
    (fes_ho : FiniteElementSpace R) (invJ0 : store R)
    (A_mat : gmap (Z * Z) R) (r c : Z) :
  (forall iel ix iy jx jy,
     0 <= iel < GetNE mesh_ho ->
     0 <= ix <= order -> 0 <= iy <= order ->
     0 <= jx <= order -> 0 <= jy <= order ->
     -1 <= jx - ix <= 1 -> -1 <= jy - iy <= 1 ->
     (node_dof fes_ho order iel ix iy, node_dof fes_ho order iel jx jy)
     <> (r, c)) ->
  Assemble2DBatchedLOR order mesh_lor mesh_ho fes_ho invJ0 A_mat !! (r, c)
  = A_mat !! (r, c).
Proof.
  intros Hno. unfold Assemble2DBatchedLOR. cbv zeta.
  apply (for_invariant (fun A => A !! (r, c) = A_mat !! (r, c)));
    [reflexivity|].
  intros iel A Hiel HA. rewrite element2D_lookup_other; [exact HA|].
  intros [[ix iy] [jx jy]] Hin. apply In_stencil_pairs in Hin.
  unfold key. simpl. apply Hno; lia.
Qed.

(** For an element whose nodes carry distinct dofs, the loops over the
    element add to the entry of each pair of equal or neighbouring nodes
    exactly the value computed for that pair, once. *)
Theorem element2D_adds_each_pair_once (order ncomp nq nk : Z) (invJ : store R)
    (fes_ho : FiniteElementSpace R) (iel_ho : Z) (A_mat : gmap (Z * Z) R)
    (ix iy jx jy : Z) :
  (forall ix iy jx jy,
     0 <= ix <= order -> 0 <= iy <= order ->
     0 <= jx <= order -> 0 <= jy <= order ->
     node_dof fes_ho order iel_ho ix iy = node_dof fes_ho order iel_ho jx jy ->
     ix = jx /\ iy = jy) ->
  0 <= ix <= order -> 0 <= iy <= order ->
  0 <= jx <= order -> 0 <= jy <= order ->
  -1 <= jx - ix <= 1 -> -1 <= jy - iy <= 1 ->
  entry (element2D order ncomp nq nk invJ fes_ho
                   (GetLexicographicOrdering fes_ho) iel_ho A_mat)
        (node_dof fes_ho order iel_ho ix iy)
        (node_dof fes_ho order iel_ho jx jy)
  = (entry A_mat (node_dof fes_ho order iel_ho ix iy)
                 (node_dof fes_ho order iel_ho jx jy)
     + pair_val order ncomp nq nk invJ iel_ho ix iy jx jy)%R.
Proof.
  intros Hinj Hix Hiy Hjx Hjy Hdx Hdy.
  apply element2D_entry_pair; [exact Hinj|].
  apply In_stencil_pairs. lia.
Qed.

Section Symmetric.
Hypothesis add_comm : forall a b : R, (a + b)%R = (b + a)%R.
Hypothesis mul_comm : forall a b : R, (a * b)%R = (b * a)%R.

Lemma pair_val_swap (order ncomp nq nk : Z) (invJ : store R)
    (iel_ho ix iy jx jy : Z) :
  pair_val order ncomp nq nk invJ iel_ho ix iy jx jy
  = pair_val order ncomp nq nk invJ iel_ho jx jy ix iy.
Proof.
  unfold pair_val. cbv zeta.
  rewrite (kx_begin_comm jx ix), (kx_begin_comm jy iy),
          (kx_end_comm order jx ix), (kx_end_comm order jy iy).
  apply for_ext. intros ky v _. apply for_ext. intros kx v' _.
  unfold cell_term.
  apply for_ext. intros iqy v'' _. apply for_ext. intros iqx v''' _.
  now apply quad_term_symmetric.
Qed.

Lemma element2D_keeps_symmetry (order ncomp nq nk : Z) (invJ : store R)
    (fes_ho : FiniteElementSpace R) (iel_ho : Z) (A_mat : gmap (Z * Z) R) :
  distinct_dofs fes_ho order iel_ho ->
  (forall r c, entry A_mat r c = entry A_mat c r) ->
  forall r c,
    entry (element2D order ncomp nq nk invJ fes_ho
                     (GetLexicographicOrdering fes_ho) iel_ho A_mat) r c
    = entry (element2D order ncomp nq nk invJ fes_ho
                       (GetLexicographicOrdering fes_ho) iel_ho A_mat) c r.
Proof.
  intros Hinj Hsym r c.
  destruct (key_found_or_not (key fes_ho order iel_ho) (stencil_pairs order) (r, c))
    as [([[ix iy] [jx jy]] & Hin & Hkey) | Hno].
  - unfold key in Hkey. simpl in Hkey. injection Hkey as <- <-.
    assert (Hin' : In ((jx, jy), (ix, iy)) (stencil_pairs order))
      by (apply In_stencil_pairs; apply In_stencil_pairs in Hin; lia).
    rewrite !element2D_entry_pair by assumption.
    now rewrite Hsym, pair_val_swap.
  - assert (Hno' : forall ij, In ij (stencil_pairs order) ->
                              key fes_ho order iel_ho ij <> (c, r)).
    { intros [[ix iy] [jx jy]] Hin Hkey. unfold key in Hkey. simpl in Hkey.
      injection Hkey as Hc Hr.
      apply (Hno ((jx, jy), (ix, iy))).
      - apply In_stencil_pairs. apply In_stencil_pairs in Hin. lia.
      - unfold key. simpl. congruence. }
    unfold entry. rewrite !element2D_lookup_other by assumption.
    apply Hsym.
Qed.

(** Where the nodes of each element carry distinct dofs, the 2D kernel keeps
    the global matrix symmetric: from a symmetric matrix (the empty one the
    driver passes, in particular) it produces a matrix whose entries (r,c)
    and (c,r) are equal. Only commutativity of the scalar addition and
    multiplication is used, so the two entries are the same also in
    floating point. *)
Theorem assemble2D_symmetric (order : Z) (mesh_lor mesh_ho : Mesh R)
    (fes_ho : FiniteElementSpace R) (invJ0 : store R)
    (A_mat : gmap (Z * Z) R) (r c : Z) :
  (forall iel ix iy jx jy,
     0 <= iel < GetNE mesh_ho ->
     0 <= ix <= order -> 0 <= iy <= order ->
     0 <= jx <= order -> 0 <= jy <= order ->
     node_dof fes_ho order iel ix iy = node_dof fes_ho order iel jx jy ->
     ix = jx /\ iy = jy) ->
  (forall r c, entry A_mat r c = entry A_mat c r) ->
  entry (Assemble2DBatchedLOR order mesh_lor mesh_ho fes_ho invJ0 A_mat) r c
  = entry (Assemble2DBatchedLOR order mesh_lor mesh_ho fes_ho invJ0 A_mat) c r.
Proof.
  intros Hinj Hsym. revert r c. unfold Assemble2DBatchedLOR. cbv zeta.
  apply (for_invariant (fun A => forall r c, entry A r c = entry A c r));
    [exact Hsym|].
  intros iel A Hiel HA. apply element2D_keeps_symmetry; [|exact HA].
  intros ix iy jx jy. now apply Hinj.
Qed.

End Symmetric.
End Assembled2D.

Ltac enum2 x :=
  let Hx := fresh "Hx" in
  assert (Hx : x = 0 \/ x = 1) by lia; destruct Hx as [-> | ->].

Ltac enum3 x :=
  let Hx := fresh "Hx" in
  assert (Hx : x = 0 \/ x = 1 \/ x = 2) by lia; destruct Hx as [-> | [-> | ->]].

Lemma unit_square_distinct_dofs {R : Type} `{Scalar R} (iel ix iy jx jy : Z) :
  0 <= ix <= 1 -> 0 <= iy <= 1 -> 0 <= jx <= 1 -> 0 <= jy <= 1 ->
  node_dof (R:=R) unit_square_fes 1 iel ix iy
  = node_dof unit_square_fes 1 iel jx jy ->
  ix = jx /\ iy = jy.
Proof.
  intros Hix Hiy Hjx Hjy.
  enum2 ix; enum2 iy; enum2 jx; enum2 jy; vm_compute; intros Heq;
    (split; reflexivity) || discriminate.
Qed.

Lemma refined_square_distinct_dofs {R : Type} `{Scalar R}
    (iel ix iy jx jy : Z) :
  0 <= ix <= 2 -> 0 <= iy <= 2 -> 0 <= jx <= 2 -> 0 <= jy <= 2 ->
  node_dof (R:=R) refined_square_fes 2 iel ix iy
  = node_dof refined_square_fes 2 iel jx jy ->
  ix = jx /\ iy = jy.
Proof.
  intros Hix Hiy Hjx Hjy.
  enum3 ix; enum3 iy; enum3 jx; enum3 jy; vm_compute; intros Heq;
    (split; reflexivity) || discriminate.
Qed.

(** In the order-2 element the corner dofs 0 and 2 belong to opposite
    corners, which are no neighbours: nothing is stored at (0,2). *)
Lemma assemble2D_stays_in_stencil_witness :
  Assemble2DBatchedLOR (R:=Qc) 2 refined_square_mesh unit_square_mesh
                       refined_square_fes (const_store zero) ∅ !! (0, 2)
  = (∅ : gmap (Z * Z) Qc) !! (0, 2).
Proof.
  apply (assemble2D_stays_in_stencil (R:=Qc)).
  intros iel ix iy jx jy _ Hix Hiy Hjx Hjy Hdx Hdy.
  enum3 ix; enum3 iy; enum3 jx; enum3 jy; try lia; vm_compute; discriminate.
Defined.

(** The unit square: the pair of the opposite nodes (0,0) and (1,1). *)
Lemma element2D_adds_each_pair_once_witness :
  entry (element2D (R:=Qc) 1 3 4 1 (const_store one) unit_square_fes
                   (GetLexicographicOrdering unit_square_fes) 0 ∅)
        (node_dof unit_square_fes 1 0 0 0) (node_dof unit_square_fes 1 0 1 1)
  = (entry ∅ (node_dof unit_square_fes 1 0 0 0)
             (node_dof unit_square_fes 1 0 1 1)
     + pair_val 1 3 4 1 (const_store one) 0 0 0 1 1)%R.
Proof.
  apply (element2D_adds_each_pair_once (R:=Qc) 1 3 4 1 (const_store one)
           unit_square_fes 0 ∅ 0 0 1 1); try lia.
  intros ix iy jx jy. apply unit_square_distinct_dofs.
Defined.

(** The order-2 element on the refined unit square, at the corner dof 0 and
    the edge dof 4 next to it. *)
Lemma assemble2D_symmetric_witness :
  entry (Assemble2DBatchedLOR (R:=Qc) 2 refined_square_mesh unit_square_mesh
                              refined_square_fes (const_store zero) ∅) 0 4
  = entry (Assemble2DBatchedLOR (R:=Qc) 2 refined_square_mesh unit_square_mesh
                                refined_square_fes (const_store zero) ∅) 4 0.
Proof.
  apply (assemble2D_symmetric (R:=Qc)).
  - exact Qcplus_comm.
  - exact Qcmult_comm.
  - intros iel ix iy jx jy _. apply refined_square_distinct_dofs.
  - intros r c. reflexivity.
Defined.

(** ** The 8x8 local matrix of the 3D kernel *)

Ltac enum8 x :=
  let Hx := fresh "Hx" in
  assert (Hx : x = 0 \/ x = 1 \/ x = 2 \/ x = 3 \/
               x = 4 \/ x = 5 \/ x = 6 \/ x = 7) by lia;
  destruct Hx as [-> | [-> | [-> | [-> | [-> | [-> | [-> | ->]]]]]]].

Section LocalMatrix3D.
Context {R : Type} `{Scalar R}.

(** The 64 values after a sub-cell iteration, column by column. *)
Lemma subcell3D_local_matrix_eq (order ncomp nq nk nd1d : Z) (invJ : store R)
    (dofs lex_map : list Z) (iel_ho kz ky kx : Z) (st : state3D) :
  List.length (local_mat st) = 64%nat ->
  local_mat (subcell3D order ncomp nq nk nd1d invJ dofs lex_map
                       iel_ho kz ky kx st)
  = (j ← range 0 8; i ← range 0 8;
     [local_entry ncomp nq nk invJ iel_ho
                  (kx + ky * order + kz * order * order) i j]).
Proof.
  intros Hlen. unfold subcell3D. cbv zeta. rewrite Hlen.
  generalize (kx + ky * order + kz * order * order) as k. intros k.
  cbv -[idx4 add mul neg one zero].
  reflexivity.
Qed.

Lemma subcell3D_local_entry (order ncomp nq nk nd1d : Z) (invJ : store R)
    (dofs lex_map : list Z) (iel_ho kz ky kx : Z) (st : state3D) (i j : Z) :
  List.length (local_mat st) = 64%nat ->
  0 <= i < 8 -> 0 <= j < 8 ->
  lm_get (local_mat (subcell3D order ncomp nq nk nd1d invJ dofs lex_map
                               iel_ho kz ky kx st)) (i + 8 * j)
  = local_entry ncomp nq nk invJ iel_ho
                (kx + ky * order + kz * order * order) i j.
Proof.
  intros Hlen Hi Hj. rewrite subcell3D_local_matrix_eq by exact Hlen.
  generalize (local_entry ncomp nq nk invJ iel_ho
                          (kx + ky * order + kz * order * order)) as f.
  intros f. enum8 i; enum8 j; reflexivity.
Qed.

(** After a sub-cell iteration of the 3D kernel, started with the 64 values
    of [local_mat] in any state, the value at row [i], column [j] of the 8x8
    matrix is the sum, over the sub-cell's eight quadrature points in loop
    order and starting from zero, of [val] for the corners [i] and [j]. *)
Theorem subcell3D_sums_quadrature_points (order ncomp nq nk nd1d : Z)
    (invJ : store R) (dofs lex_map : list Z) (iel_ho kz ky kx : Z)
    (st : state3D) (i j : Z) :
  List.length (local_mat st) = 64%nat ->
  0 <= i < 8 -> 0 <= j < 8 ->
  lm_get (local_mat (subcell3D order ncomp nq nk nd1d invJ dofs lex_map
                               iel_ho kz ky kx st)) (i + 8 * j)
  = local_entry ncomp nq nk invJ iel_ho
                (kx + ky * order + kz * order * order) i j.
Proof. apply subcell3D_local_entry. Qed.

Section Symmetric3D.
Hypothesis add_comm : forall a b : R, (a + b)%R = (b + a)%R.
Hypothesis mul_comm : forall a b : R, (a * b)%R = (b * a)%R.

Lemma corner_val_swap (iqx iqy iqz : Z) (J0 J1 J2 J3 J4 J5 : R)
    (jz jy jx iz iy ix : Z) :
  corner_val iqx iqy iqz J0 J1 J2 J3 J4 J5 jz jy jx iz iy ix
  = corner_val iqx iqy iqz J0 J1 J2 J3 J4 J5 iz iy ix jz jy jx.
Proof.
  unfold corner_val. cbv zeta.
  generalize (gfac jx * bfac jy iqy * bfac jz iqz)%R as gj_x.
  generalize (bfac jx iqx * gfac jy * bfac jz iqz)%R as gj_y.
  generalize (bfac jx iqx * bfac jy iqy * gfac jz)%R as gj_z.
  generalize (gfac ix * bfac iy iqy * bfac iz iqz)%R as gi_x.
  generalize (bfac ix iqx * gfac iy * bfac iz iqz)%R as gi_y.
  generalize (bfac ix iqx * bfac iy iqy * gfac iz)%R as gi_z.
  intros gi_z gi_y gi_x gj_z gj_y gj_x.
  rewrite (mul_comm gj_x gi_x), (mul_comm gj_y gi_y), (mul_comm gj_z gi_z).
  rewrite (mul_comm gj_y gi_x), (mul_comm gj_x gi_y),
          (mul_comm gj_z gi_x), (mul_comm gj_x gi_z),
          (mul_comm gj_z gi_y), (mul_comm gj_y gi_z).
  rewrite (add_comm (gi_x * gj_y)%R), (add_comm (gi_x * gj_z)%R),
          (add_comm (gi_y * gj_z)%R).
  reflexivity.
Qed.

(** The local matrix of every sub-cell is symmetric: its values at (i,j)
    and at (j,i) are equal, given only that the scalar addition and
    multiplication commute. *)
Theorem subcell3D_local_matrix_symmetric (order ncomp nq nk nd1d : Z)
    (invJ : store R) (dofs lex_map : list Z) (iel_ho kz ky kx : Z)
    (st : state3D) (i j : Z) :
  List.length (local_mat st) = 64%nat ->
  0 <= i < 8 -> 0 <= j < 8 ->
  lm_get (local_mat (subcell3D order ncomp nq nk nd1d invJ dofs lex_map
                               iel_ho kz ky kx st)) (i + 8 * j)
  = lm_get (local_mat (subcell3D order ncomp nq nk nd1d invJ dofs lex_map
                                 iel_ho kz ky kx st)) (j + 8 * i).
Proof.
  intros Hlen Hi Hj. rewrite !subcell3D_local_entry by assumption.
  unfold local_entry. apply fold_left_pointwise. intros acc iq.
  f_equal. apply corner_val_swap.
Qed.

End Symmetric3D.
End LocalMatrix3D.

(** The single sub-cell of an order-1 element over a metric buffer of ones:
    the entry of corner 3 against corner 5. *)
Lemma subcell3D_sums_quadrature_points_witness :
  lm_get (local_mat
            (subcell3D (R:=Qc) 1 6 8 1 2 (const_store one)
                       [0; 1; 2; 3; 4; 5; 6; 7] [0; 1; 3; 2; 4; 5; 7; 6]
                       0 0 0 0
                       {| local_mat := replicate 64 one; A_mat3 := ∅ |}))
         (3 + 8 * 5)
  = local_entry 6 8 1 (const_store one) 0 (0 + 0 * 1 + 0 * 1 * 1) 3 5.
Proof.
  apply (subcell3D_sums_quadrature_points (R:=Qc)); [reflexivity|lia|lia].
Defined.

Lemma subcell3D_local_matrix_symmetric_witness :
  lm_get (local_mat
            (subcell3D (R:=Qc) 1 6 8 1 2 (const_store one)
                       [0; 1; 2; 3; 4; 5; 6; 7] [0; 1; 3; 2; 4; 5; 7; 6]
                       0 0 0 0
                       {| local_mat := replicate 64 one; A_mat3 := ∅ |}))
         (3 + 8 * 5)
  = lm_get (local_mat
              (subcell3D (R:=Qc) 1 6 8 1 2 (const_store one)
                         [0; 1; 2; 3; 4; 5; 6; 7] [0; 1; 3; 2; 4; 5; 7; 6]
                         0 0 0 0
                         {| local_mat := replicate 64 one; A_mat3 := ∅ |}))
           (5 + 8 * 3).
Proof.
  apply (subcell3D_local_matrix_symmetric (R:=Qc)).
  - exact Qcplus_comm.
  - exact Qcmult_comm.
  - reflexivity.
  - lia.
  - lia.
Defined.

(** *** Constants are in the kernel of the local matrix *)

Lemma local_entry_row_sum (ncomp nq nk : Z) (invJ : store Qc) (iel_ho k i : Z) :
  0 <= i < 8 ->
  for_ 0 8 (fun j acc => (acc + local_entry ncomp nq nk invJ iel_ho k i j)%R)
       zero
  = zero.
Proof.
  intros Hi. enum8 i.
  all: cbv -[Qcplus Qcmult Qcopp Qcminus Qcdiv Q2Qc idx4].
  all: ring.
Qed.

(** Over the rationals every row of the local matrix of a sub-cell sums to
    zero, whatever the metric buffer holds: the eight trilinear hat
    functions add up to one, so the gradients the kernel tabulates cancel
    and a constant field has no energy. *)
Theorem subcell3D_rows_sum_to_zero (order ncomp nq nk nd1d : Z)
    (invJ : store Qc) (dofs lex_map : list Z) (iel_ho kz ky kx : Z)
    (st : state3D) (i : Z) :
  List.length (local_mat st) = 64%nat ->
  0 <= i < 8 ->
  for_ 0 8 (fun j acc =>
              (acc + lm_get (local_mat
                               (subcell3D order ncomp nq nk nd1d invJ dofs
                                          lex_map iel_ho kz ky kx st))
                            (i + 8 * j))%R)
       zero
  = zero.
Proof.
  intros Hlen Hi.
  etransitivity;
    [|apply (local_entry_row_sum ncomp nq nk invJ iel_ho
               (kx + ky * order + kz * order * order) i Hi)].
  apply for_ext. intros j acc Hj.
  now rewrite subcell3D_local_entry by (assumption || lia).
Qed.

(** Row 6 of the local matrix of the sheared cell. *)
Lemma subcell3D_rows_sum_to_zero_witness :
  for_ 0 8 (fun j acc =>
              (acc + lm_get (local_mat
                               (subcell3D (R:=Qc) 1 6 8 1 2
                                  (geom3D sheared_hex_mesh 1 3 (const_store zero))
                                  [0; 1; 2; 3; 4; 5; 6; 7]
                                  [0; 1; 3; 2; 4; 5; 7; 6] 0 0 0 0
                                  {| local_mat := replicate 64 one;
                                     A_mat3 := ∅ |}))
                            (6 + 8 * j))%R)
       zero
  = zero.
Proof.
  apply (subcell3D_rows_sum_to_zero 1 6 8 1 2); [reflexivity|lia].
Defined.

(** ** What the 3D kernel ends with *)

Lemma for_last {S : Type} (lo hi : Z) (body : Z -> S -> S) (s : S) :
  lo < hi -> for_ lo hi body s = body (hi - 1) (for_ lo (hi - 1) body s).
Proof.
  intros Hlt. unfold for_.
  rewrite (range_split lo (hi - 1) hi) by lia.
  rewrite (range_first (hi - 1) hi) by lia.
  rewrite (range_empty (hi - 1 + 1) hi) by lia.
  now rewrite fold_left_app.
Qed.

Section Final3D.
Context {R : Type} `{Scalar R}.

Lemma lm_add_length (lm : list R) (n : Z) (v : R) :
  List.length (lm_add lm n v) = List.length lm.
Proof.
  unfold lm_add. destruct (n <? 0); [reflexivity|]. apply length_insert.
Qed.

Lemma subcell3D_length (order ncomp nq nk nd1d : Z) (invJ : store R)
    (dofs lex_map : list Z) (iel_ho kz ky kx : Z) (st : state3D) :
  List.length (local_mat (subcell3D order ncomp nq nk nd1d invJ dofs lex_map
                                    iel_ho kz ky kx st))
  = List.length (local_mat st).
Proof.
  unfold subcell3D. cbv zeta.
  set (n := List.length (local_mat st)).
  apply (for_invariant (fun t => List.length (local_mat t) = n)).
  { simpl. apply length_replicate. }
  intros iqz t _ Ht.
  apply (for_invariant (fun t => List.length (local_mat t) = n)); [exact Ht|].
  clear t Ht. intros iqy t _ Ht.
  apply (for_invariant (fun t => List.length (local_mat t) = n)); [exact Ht|].
  clear t Ht. intros iqx t _ Ht. unfold quad3D_step. cbv zeta.
  apply (for_invariant (fun t => List.length (local_mat t) = n)); [exact Ht|].
  clear t Ht. intros jz t _ Ht.
  apply (for_invariant (fun t => List.length (local_mat t) = n)); [exact Ht|].
  clear t Ht. intros jy t _ Ht.
  apply (for_invariant (fun t => List.length (local_mat t) = n)); [exact Ht|].
  clear t Ht. intros jx t _ Ht. unfold corner_j_step. cbv zeta.
  apply (for_invariant (fun t => List.length (local_mat t) = n)); [exact Ht|].
  clear t Ht. intros iz t _ Ht.
  apply (for_invariant (fun t => List.length (local_mat t) = n)); [exact Ht|].
  clear t Ht. intros iy t _ Ht.
  apply (for_invariant (fun t => List.length (local_mat t) = n)); [exact Ht|].
  clear t Ht. intros ix t _ Ht. unfold corner_i_step. simpl.
  now rewrite lm_add_length.
Qed.

Lemma element3D_length (order ncomp nq nk nd1d : Z) (invJ : store R)
    (fes_ho : FiniteElementSpace R) (lex_map : list Z) (iel_ho : Z)
    (st : state3D) :
  List.length (local_mat (element3D order ncomp nq nk nd1d invJ fes_ho
                                    lex_map iel_ho st))
  = List.length (local_mat st).
Proof.
  unfold element3D. cbv zeta.
  set (n := List.length (local_mat st)).
  apply (for_invariant (fun t => List.length (local_mat t) = n)); [reflexivity|].
  intros kz t _ Ht.
  apply (for_invariant (fun t => List.length (local_mat t) = n)); [exact Ht|].
  clear t Ht. intros ky t _ Ht.
  apply (for_invariant (fun t => List.length (local_mat t) = n)); [exact Ht|].
  clear t Ht. intros kx t _ Ht. now rewrite subcell3D_length.
Qed.

(** When the 3D kernel returns, for a mesh with at least one element and an
    order of at least 1, all that is left of its assembly work is the local
    matrix of the last sub-cell (order-1, order-1, order-1) of the last
    element, in [local_mat]: the matrices of all other sub-cells have been
    zeroed over. *)
Theorem run3D_keeps_last_local_matrix (order : Z) (mesh_lor mesh_ho : Mesh R)
    (fes_ho : FiniteElementSpace R) (invJ0 : store R) (lm0 : list R)
    (A_mat : gmap (Z * Z) R) :
  List.length lm0 = 64%nat ->
  1 <= order ->
  1 <= GetNE mesh_ho ->
  let dim := Dimension mesh_ho in
  let k := (order - 1) + (order - 1) * order + (order - 1) * order * order in
  local_mat (run3D order mesh_lor mesh_ho fes_ho invJ0 lm0 A_mat)
  = (j ← range 0 8; i ← range 0 8;
     [local_entry ((dim * (dim + 1)) / 2) (ir_size (ir mesh_lor)) (order ^ dim)
                  (geom3D mesh_lor order dim invJ0) (GetNE mesh_ho - 1) k i j]).
Proof.
  intros Hlen Horder Hne. cbv zeta. unfold run3D. cbv zeta.
  rewrite for_last by lia.
  set (st := for_ 0 (GetNE mesh_ho - 1) _ _).
  assert (Hst : List.length (local_mat st) = 64%nat).
  { subst st.
    apply (for_invariant (fun t => List.length (local_mat t) = 64%nat));
      [exact Hlen|].
    intros iel t _ Ht. now rewrite element3D_length. }
  unfold element3D. cbv zeta.
  rewrite for_last by lia.
  set (st1 := for_ 0 (order - 1) _ st).
  assert (Hst1 : List.length (local_mat st1) = 64%nat).
  { subst st1.
    apply (for_invariant (fun t => List.length (local_mat t) = 64%nat));
      [exact Hst|].
    intros kz t _ Ht.
    apply (for_invariant (fun t => List.length (local_mat t) = 64%nat));
      [exact Ht|].
    clear t Ht. intros ky t _ Ht.
    apply (for_invariant (fun t => List.length (local_mat t) = 64%nat));
      [exact Ht|].
    clear t Ht. intros kx t _ Ht. now rewrite subcell3D_length. }
  rewrite for_last by lia.
  set (st2 := for_ 0 (order - 1) _ st1).
  assert (Hst2 : List.length (local_mat st2) = 64%nat).
  { subst st2.
    apply (for_invariant (fun t => List.length (local_mat t) = 64%nat));
      [exact Hst1|].
    intros ky t _ Ht.
    apply (for_invariant (fun t => List.length (local_mat t) = 64%nat));
      [exact Ht|].
    clear t Ht. intros kx t _ Ht. now rewrite subcell3D_length. }
  rewrite for_last by lia.
  set (st3 := for_ 0 (order - 1) _ st2).
  assert (Hst3 : List.length (local_mat st3) = 64%nat).
  { subst st3.
    apply (for_invariant (fun t => List.length (local_mat t) = 64%nat));
      [exact Hst2|].
    intros kx t _ Ht. now rewrite subcell3D_length. }
  now rewrite subcell3D_local_matrix_eq by exact Hst3.
Qed.

End Final3D.

(** The sheared cell with an order-1 space: one element, one sub-cell. *)
Lemma run3D_keeps_last_local_matrix_witness :
  local_mat (run3D (R:=Qc) 1 sheared_hex_mesh sheared_hex_mesh (hex_fes true 1)
                   (const_store zero) (replicate 64 one) ∅)
  = (j ← range 0 8; i ← range 0 8;
     [local_entry (3 * (3 + 1) / 2) (ir_size (ir (sheared_hex_mesh (R:=Qc))))
                  (1 ^ 3)
                  (geom3D sheared_hex_mesh 1 3 (const_store zero)) (1 - 1)
                  ((1 - 1) + (1 - 1) * 1 + (1 - 1) * 1 * 1) i j]).
Proof.
  apply (run3D_keeps_last_local_matrix (R:=Qc) 1 sheared_hex_mesh
           sheared_hex_mesh (hex_fes true 1) (const_store zero)
           (replicate 64 one) ∅).
  - reflexivity.
  - lia.
  - simpl. lia.
Defined.

(** ** What the elimination loop leaves alone *)

Section EliminationFrame.
Context {R : Type} `{Scalar R}.

Lemma EliminateRowCol_lookup_other (rc r c : Z) (m : gmap (Z * Z) R) :
  r <> rc -> c <> rc -> EliminateRowCol rc m !! (r, c) = m !! (r, c).
Proof.
  intros Hr Hc. unfold EliminateRowCol. rewrite map_lookup_imap.
  destruct (m !! (r, c)) as [v|]; simpl; [|reflexivity].
  rewrite bool_decide_eq_false_2; [reflexivity|]. simpl. tauto.
Qed.

Lemma EliminateRowCol_stored (rc r c : Z) (m : gmap (Z * Z) R) :
  is_Some (EliminateRowCol rc m !! (r, c)) <-> is_Some (m !! (r, c)).
Proof.
  unfold EliminateRowCol. rewrite map_lookup_imap.
  destruct (m !! (r, c)) as [v|]; simpl.
  - destruct (bool_decide _); split; eauto.
  - reflexivity.
Qed.

(** The elimination loop of lines 523-526, with [EliminateRowCol] as the
    specification describes it, changes nothing outside the rows and columns
    of the essential dofs, and it neither adds a position to the matrix nor
    drops one: zeroed entries stay stored. *)
Theorem elimination_leaves_the_rest (ess_dofs : list Z)
    (A_mat : gmap (Z * Z) R) (r c : Z) :
  (is_Some (eliminate_all ess_dofs A_mat !! (r, c))
   <-> is_Some (A_mat !! (r, c))) /\
  (~ In r ess_dofs -> ~ In c ess_dofs ->
   eliminate_all ess_dofs A_mat !! (r, c) = A_mat !! (r, c)).
Proof.
  unfold eliminate_all. revert A_mat.
  induction ess_dofs as [|i l IH]; intros A_mat; simpl.
  - split; [reflexivity|intros _ _; reflexivity].
  - destruct (IH (EliminateRowCol i A_mat)) as [Hst Hval]. split.
    + rewrite Hst. apply EliminateRowCol_stored.
    + intros Hr Hc. rewrite Hval by tauto.
      apply EliminateRowCol_lookup_other; intros ->; tauto.
Qed.

End EliminationFrame.

(** The unit-square matrix with the essential dofs 0 and 2, at position (1,3). *)
Lemma elimination_leaves_the_rest_witness :
  let A_mat := Assemble2DBatchedLOR (R:=Qc) 1 unit_square_mesh unit_square_mesh
                                    unit_square_fes (const_store zero) ∅ in
  (is_Some (eliminate_all [0; 2] A_mat !! (1, 3)) <-> is_Some (A_mat !! (1, 3))) /\
  (~ In 1 [0; 2] -> ~ In 3 [0; 2] ->
   eliminate_all [0; 2] A_mat !! (1, 3) = A_mat !! (1, 3)).
Proof.
  apply (elimination_leaves_the_rest (R:=Qc)).
Defined.

(** ** Constants are in the kernel of the 2D element matrix *)

Lemma kx_begin_eq (ix jx v : Z) :
  ix - 1 <= v -> 0 <= v -> jx - 1 <= v ->
  v = ix - 1 \/ v = 0 \/ v = jx - 1 ->
  kx_begin ix jx = v.
Proof. unfold kx_begin. lia. Qed.

Lemma kx_end_eq (order ix jx v : Z) :
  v <= ix -> v <= order - 1 -> v <= jx ->
  v = ix \/ v = order - 1 \/ v = jx ->
  kx_end order ix jx = v + 1.
Proof. unfold kx_end. lia. Qed.

Lemma range_one (a b x : Z) : a = x -> b = x + 1 -> range a b = [x].
Proof.
  intros -> ->. rewrite range_first by lia. now rewrite range_empty by lia.
Qed.

Lemma range_two (a b x y : Z) :
  a = x -> y = x + 1 -> b = x + 2 -> range a b = [x; y].
Proof.
  intros -> -> ->. rewrite range_first by lia. rewrite range_first by lia.
  now rewrite range_empty by lia.
Qed.

Lemma add_sub_add (n m p : Z) : n + m - (n + p) = m - p.
Proof. lia. Qed.

(** Settle the bounds tests of the shift loops from the hypotheses. *)
Ltac decide_tests :=
  repeat match goal with
  | |- context [(?a <? 0) || (?a >=? ?b)] =>
      first
        [ replace ((a <? 0) || (a >=? b)) with false
            by (symmetry; apply orb_false_iff; split;
                [apply Z.ltb_ge; lia | rewrite Z.geb_leb; apply Z.leb_gt; lia])
        | replace ((a <? 0) || (a >=? b)) with true
            by (symmetry; apply orb_true_iff;
                first [left; apply Z.ltb_lt; lia
                      |right; rewrite Z.geb_leb; apply Z.leb_le; lia]) ]
  end.

(** Write the sub-cell ranges of a node pair as lists relative to the node. *)
Ltac fix_ranges :=
  repeat match goal with
  | |- context [range (kx_begin ?i ?j) (kx_end ?o ?i ?j)] =>
      first
        [ replace (range (kx_begin i j) (kx_end o i j)) with [i + -1; i + 0]
            by (symmetry; apply range_two;
                [apply kx_begin_eq; lia | lia
                |rewrite (kx_end_eq o i j (i + 0)); lia])
        | replace (range (kx_begin i j) (kx_end o i j)) with [i + -1]
            by (symmetry; apply range_one;
                [apply kx_begin_eq; lia
                |rewrite (kx_end_eq o i j (i + -1)); lia])
        | replace (range (kx_begin i j) (kx_end o i j)) with [i + 0]
            by (symmetry; apply range_one;
                [apply kx_begin_eq; lia
                |rewrite (kx_end_eq o i j (i + 0)); lia]) ]
  end.

Ltac abstract_reads invJ :=
  repeat match goal with
  | |- context [invJ ?x] => generalize (invJ x); intro
  end.

(** For a node at the low end, in the interior or at the high end of each
    axis, the loops unroll to a polynomial in the metric values of the up
    to four sub-cells around the node, which vanishes identically. *)
Lemma row_sum2D_zero (order ncomp nq nk : Z) (invJ : store Qc)
    (iel_ho ix iy : Z) :
  1 <= order -> 0 <= ix <= order -> 0 <= iy <= order ->
  row_sum2D order ncomp nq nk invJ iel_ho ix iy = zero.
Proof.
  intros Ho Hx Hy. unfold row_sum2D, for_.
  change (range (-1) 2) with [-1; 0; 1]. cbn [fold_left]. cbv zeta.
  assert (Cx : ix = 0 \/ 0 < ix < order \/ ix = order) by lia.
  assert (Cy : iy = 0 \/ 0 < iy < order \/ iy = order) by lia.
  destruct Cx as [Cx | [Cx | Cx]]; destruct Cy as [Cy | [Cy | Cy]].
  all: decide_tests.
  all: unfold pair_val, for_; cbv zeta.
  all: fix_ranges.
  all: unfold cell_term, quad_term, for_; change (range 0 2) with [0; 1].
  all: cbn [fold_left]; cbv zeta.
  all: rewrite ?Z.add_simpl_l, ?add_sub_add.
  all: abstract_reads invJ.
  all: cbv -[Qcplus Qcmult Qcopp Qcminus Qcdiv Q2Qc].
  all: intros; ring.
Qed.

Lemma filter_bind {A B : Type} (P : B -> bool) (g : A -> list B) (l : list A) :
  List.filter P (l ≫= g) = l ≫= (fun x => List.filter P (g x)).
Proof.
  induction l as [|x l IH]; [reflexivity|].
  change (List.filter P (g x ++ (l ≫= g))
          = List.filter P (g x) ++ (l ≫= (fun x => List.filter P (g x)))).
  now rewrite List.filter_app, IH.
Qed.

Lemma bind_nil {A B : Type} (h : A -> list B) (l : list A) :
  (forall x, In x l -> h x = []) -> l ≫= h = [].
Proof.
  induction l as [|x l IH]; intros Hnil; [reflexivity|].
  change (h x ++ (l ≫= h) = []).
  rewrite (Hnil x) by now left.
  apply IH. intros x' Hx'. apply Hnil. now right.
Qed.

Lemma bind_single {A B : Type} (h : A -> list B) (l : list A) (x0 : A) :
  List.NoDup l -> In x0 l ->
  (forall x, In x l -> x <> x0 -> h x = []) ->
  l ≫= h = h x0.
Proof.
  intros Hnd. induction Hnd as [|x l Hx Hnd IH]; intros Hin Hnil; [destruct Hin|].
  change (h x ++ (l ≫= h) = h x0).
  destruct Hin as [->|Hin].
  - rewrite bind_nil; [apply app_nil_r|].
    intros x Hxl. apply Hnil; [now right|]. intros ->. contradiction.
  - rewrite (Hnil x); [|now left|intros ->; contradiction].
    apply IH; [exact Hin|].
    intros x' Hx' Hne. apply Hnil; [now right|exact Hne].
Qed.

Lemma filter_none {B : Type} (P : B -> bool) (l : list B) :
  (forall y, In y l -> P y = false) -> List.filter P l = [].
Proof.
  induction l as [|y l IH]; intros Hl; simpl; [reflexivity|].
  rewrite (Hl y) by now left. apply IH. intros y' Hy'. apply Hl. now right.
Qed.

Lemma filter_all {B : Type} (P : B -> bool) (l : list B) :
  (forall y, In y l -> P y = true) -> List.filter P l = l.
Proof.
  induction l as [|y l IH]; intros Hl; simpl; [reflexivity|].
  rewrite (Hl y) by now left. f_equal. apply IH.
  intros y' Hy'. apply Hl. now right.
Qed.

(** The pairs of [stencil_pairs] in the row of one node are that node
    against each of its neighbours inside the element, in loop order. *)
Lemma filter_row_stencil (order ix iy : Z) :
  0 <= ix <= order -> 0 <= iy <= order ->
  List.filter (in_row ix iy) (stencil_pairs order)
  = (xshift ← range (-1) 2;
     if (ix + xshift <? 0) || (ix + xshift >=? order + 1) then []
     else
       yshift ← range (-1) 2;
       if (iy + yshift <? 0) || (iy + yshift >=? order + 1) then []
       else [((ix, iy), (ix + xshift, iy + yshift))]).
Proof.
  intros Hx Hy. unfold stencil_pairs.
  assert (Hfst : forall ix' iy' p,
            In p (xshift ← range (-1) 2;
                  if (ix' + xshift <? 0) || (ix' + xshift >=? order + 1) then []
                  else
                    yshift ← range (-1) 2;
                    if (iy' + yshift <? 0) || (iy' + yshift >=? order + 1)
                    then []
                    else [((ix', iy'), (ix' + xshift, iy' + yshift))]) ->
            in_row ix iy p = (ix' =? ix) && (iy' =? iy)).
  { intros ix' iy' p Hp. unpack_stencil Hp. subst p. reflexivity. }
  rewrite filter_bind.
  rewrite (bind_single _ (range 0 (order + 1)) iy);
    [|apply NoDup_range|apply In_range; lia|].
  - rewrite filter_bind.
    rewrite (bind_single _ (range 0 (order + 1)) ix);
      [|apply NoDup_range|apply In_range; lia|].
    + apply filter_all. intros p Hp. rewrite (Hfst ix iy p Hp).
      now rewrite !Z.eqb_refl.
    + intros ix' _ Hne. apply filter_none. intros p Hp.
      rewrite (Hfst ix' iy p Hp).
      destruct (Z.eqb_spec ix' ix); [contradiction|reflexivity].
  - intros iy' _ Hne. rewrite filter_bind.
    apply bind_nil. intros ix' _. apply filter_none. intros p Hp.
    rewrite (Hfst ix' iy' p Hp).
    destruct (Z.eqb_spec iy' iy); [contradiction|apply andb_false_r].
Qed.

Section RowSumForm.
Context {R : Type} `{Scalar R}.

Lemma row_sum2D_as_fold (order ncomp nq nk : Z) (invJ : store R)
    (iel_ho ix iy : Z) :
  0 <= ix <= order -> 0 <= iy <= order ->
  fold_left (fun acc (ij : (Z * Z) * (Z * Z)) =>
               (acc + pair_val order ncomp nq nk invJ iel_ho
                               ij.1.1 ij.1.2 ij.2.1 ij.2.2)%R)
            (List.filter (in_row ix iy) (stencil_pairs order)) zero
  = row_sum2D order ncomp nq nk invJ iel_ho ix iy.
Proof.
  intros Hx Hy. rewrite filter_row_stencil by assumption.
  unfold row_sum2D, for_. cbv zeta.
  rewrite fold_left_bind. apply fold_left_pointwise. intros acc xs.
  destruct ((ix + xs <? 0) || (ix + xs >=? order + 1)); [reflexivity|].
  rewrite fold_left_bind. apply fold_left_pointwise. intros acc' ys.
  destruct ((iy + ys <? 0) || (iy + ys >=? order + 1)); reflexivity.
Qed.

End RowSumForm.

(** Over the rationals, for every node of an element of order at least 1,
    the values the 2D kernel adds to the row of that node (one for each node
    pair of the row it visits, in loop order) sum to zero, whatever the
    metric buffer holds: the bilinear hat functions of a sub-cell add up to
    one, so a constant field has no energy in any element. *)
Theorem element2D_rows_sum_to_zero (order ncomp nq nk : Z) (invJ : store Qc)
    (iel_ho ix iy : Z) :
  1 <= order -> 0 <= ix <= order -> 0 <= iy <= order ->
  fold_left (fun acc (ij : (Z * Z) * (Z * Z)) =>
               (acc + pair_val order ncomp nq nk invJ iel_ho
                               ij.1.1 ij.1.2 ij.2.1 ij.2.2)%R)
            (List.filter (in_row ix iy) (stencil_pairs order)) zero
  = zero.
Proof.
  intros Ho Hx Hy. rewrite row_sum2D_as_fold by assumption.
  now apply row_sum2D_zero.
Qed.

(** The centre node of the order-2 element on the refined unit square, with
    its nine neighbours. *)
Lemma element2D_rows_sum_to_zero_witness :
  fold_left (fun acc (ij : (Z * Z) * (Z * Z)) =>
               (acc + pair_val 2 3 4 4
                               (geom2D (refined_square_mesh (R:=Qc)) 2 2
                                       (const_store zero)) 0
                               ij.1.1 ij.1.2 ij.2.1 ij.2.2)%R)
            (List.filter (in_row 1 1) (stencil_pairs 2)) zero
  = zero.
Proof.
  apply (element2D_rows_sum_to_zero 2 3 4 4); lia.
Defined.
